(** * HoneyScan: orchestration and normalisation engine

    A shallow embedding of the core of the scanner (severity classifier,
    dependency orchestrator, nmap merge rule, collector, target registry)
    together with the properties its specification states about it.

    Python values are modelled by [pyval]; a Python [dict] with string keys
    whose order is never observed is a [gmap string _]; a [dict] whose
    insertion order is observed (the dependency graph, the merge table) is
    an association list; a [set] of names is a [gset string].  Code that can
    raise returns an [option] or a dedicated outcome type. *)

From Stdlib Require Import Ascii.
From stdpp Require Import gmap strings list fin_maps pretty sorting.

Open Scope Z_scope.

(** ** Python values and the string helpers the code relies on *)

Module Py.

(** The values that occur in the fields read by the modelled code:
    [None], integers (ports) and text. *)
Inductive pyval : Type :=
| VNone
| VInt (n : Z)
| VStr (s : string).

#[global] Instance pyval_eq_dec : EqDecision pyval.
Proof. solve_decision. Defined.

(** [str(v)] *)
Definition str (v : pyval) : string :=
  match v with
  | VNone => "None"
  | VInt n => pretty n
  | VStr s => s
  end.

(** Truth value of [v] in a condition ([if v:], [a or b], [a and b]). *)
Definition truthy (v : pyval) : bool :=
  match v with
  | VNone => false
  | VInt n => negb (n =? 0)
  | VStr s => negb (bool_decide (s = ""))
  end.

(** [d.get(k)]: a missing key reads as [None]. *)
Definition get (d : gmap string pyval) (k : string) : pyval :=
  default VNone (d !! k).

(** [d.get(k, dflt)] *)
Definition get_or (d : gmap string pyval) (k : string) (dflt : pyval) : pyval :=
  default dflt (d !! k).

(** [a or b] on values. *)
Definition or_else (a b : pyval) : pyval := if truthy a then a else b.

(** Characters removed by [str.strip()] (the ASCII white space of
    [str.isspace]: tab to carriage return, the four separators 28-31 and
    the blank). *)
Definition isspace (c : ascii) : bool :=
  let n := N_of_ascii c in
  ((9 <=? n) && (n <=? 13) || (28 <=? n) && (n <=? 32))%N.

Fixpoint lstrip (s : string) : string :=
  match s with
  | String c s' => if isspace c then lstrip s' else s
  | EmptyString => EmptyString
  end.

(** Removes trailing white space: a character is kept when it is not white
    space or when something is kept after it. *)
Fixpoint rstrip (s : string) : string :=
  match s with
  | String c s' =>
      match rstrip s' with
      | EmptyString => if isspace c then EmptyString else String c EmptyString
      | r => String c r
      end
  | EmptyString => EmptyString
  end.

(** [s.strip()] *)
Definition strip (s : string) : string := rstrip (lstrip s).

(** ASCII lower-casing of one character and of a string ([s.lower()]). *)
Definition lower_ascii (c : ascii) : ascii :=
  let n := N_of_ascii c in
  if ((65 <=? n) && (n <=? 90))%N then ascii_of_N (n + 32) else c.

Fixpoint lower (s : string) : string :=
  match s with
  | String c s' => String (lower_ascii c) (lower s')
  | EmptyString => EmptyString
  end.

(** [sep.join(parts)] *)
Fixpoint join (sep : string) (parts : list string) : string :=
  match parts with
  | [] => ""
  | [p] => p
  | p :: rest => p +:+ sep +:+ join sep rest
  end.

(** [s.split(sep)] for a one-character separator: always at least one
    piece, empty pieces are kept. *)
Fixpoint split_go (sep : ascii) (cur : string) (s : string) : list string :=
  match s with
  | EmptyString => [String.rev cur]
  | String c s' =>
      if bool_decide (c = sep) then String.rev cur :: split_go sep "" s'
      else split_go sep (String c cur) s'
  end.

Definition split (sep : ascii) (s : string) : list string := split_go sep "" s.

(** [s.isdigit()] on ASCII text: non-empty and decimal digits only. *)
Fixpoint all_digits (s : string) : bool :=
  match s with
  | EmptyString => true
  | String c s' => bool_decide (is_Some (Ascii.is_nat c)) && all_digits s'
  end.

Definition isdigit (s : string) : bool :=
  negb (bool_decide (s = "")) && all_digits s.

(** [int(s)] for a string of decimal digits. *)
Fixpoint int_go (acc : Z) (s : string) : Z :=
  match s with
  | EmptyString => acc
  | String c s' => int_go (10 * acc + Z.of_nat (default 0%nat (Ascii.is_nat c))) s'
  end.

Definition int_of_digits (s : string) : Z := int_go 0 s.

(** The five placeholder texts that count as "no value". *)
Definition sentinels : list string := ["-"; ""; "None"; "null"; "0"].

Definition is_sentinel (s : string) : bool := bool_decide (s ∈ sentinels).

Example strip_ex : strip "  tcp
 " = "tcp".
Proof. reflexivity. Qed.

Example split_ex : split "+" "ip_tcp++domain_tcp+" = ["ip_tcp"; ""; "domain_tcp"; ""].
Proof. reflexivity. Qed.

Example join_ex : join "+" ["a"; "b"; "c"] = "a+b+c".
Proof. reflexivity. Qed.

Example str_ex : (str (VInt 443), str VNone, str (VInt (-1))) = ("443", "None", "-1").
Proof. reflexivity. Qed.

Example int_ex : int_of_digits "08080" = 8080.
Proof. reflexivity. Qed.

End Py.

(** ** core/orchestrator.py: dependency graph, Kahn ordering, wave loop *)

Module Orchestrator.

(** One element of the [plugins] list of the configuration.  [enabled] is
    the truth value of [p.get("enabled")]; [depends_on] is
    [p.get("depends_on", [])]; [strict_dependencies] is [None] when the key
    is absent. *)
Record plugin_config : Type := PluginConfig {
  name : string;
  enabled : bool;
  depends_on : list string;
  strict_dependencies : option bool;
}.

#[global] Instance plugin_config_eq_dec : EqDecision plugin_config.
Proof. solve_decision. Defined.

(** A Python [dict] whose iteration order is observed: keys in insertion
    order.  Assigning to a key that is present replaces the value in place. *)
Fixpoint dict_set {V : Type} (d : list (string * V)) (k : string) (v : V)
  : list (string * V) :=
  match d with
  | [] => [(k, v)]
  | (k', v') :: d' =>
      if decide (k = k') then (k, v) :: d' else (k', v') :: dict_set d' k v
  end.

Fixpoint dict_get {V : Type} (d : list (string * V)) (k : string) : option V :=
  match d with
  | [] => None
  | (k', v') :: d' => if decide (k = k') then Some v' else dict_get d' k
  end.

(** The dependency graph: [graph[name]] is the set of names [name] waits
    for. *)
Abbreviation graph := (list (string * gset string)).

(** [{p["name"] for p in plugin_configs if p.get("enabled")}] *)
Definition enabled_names (plugin_configs : list plugin_config) : gset string :=
  list_to_set (name <$> filter (λ p, enabled p = true) plugin_configs).

(** The body of the loop of [build_dependency_graph] for one plugin. *)
Definition plugin_depends (enabled_set : gset string) (plugin : plugin_config)
  : gset string :=
  let strict := default true (strict_dependencies plugin) in
  if strict
  then list_to_set (filter (λ dep, dep ∈ enabled_set) (depends_on plugin))
  else ∅.

Definition build_dependency_graph (plugin_configs : list plugin_config) : graph :=
  let enabled_set := enabled_names plugin_configs in
  foldl (λ g plugin, dict_set g (name plugin) (plugin_depends enabled_set plugin))
        [] plugin_configs.

(** [in_degree] is a [defaultdict(int)]: a missing key reads as 0. *)
Definition deg (in_degree : gmap string Z) (node : string) : Z :=
  default 0 (in_degree !! node).

(** [for dep in deps: in_degree[node] += 1] *)
Definition count_deps (node : string) (deps : gset string)
  (in_degree : gmap string Z) : gmap string Z :=
  foldl (λ m _, <[node := deg m node + 1]> m) in_degree (elements deps).

Definition initial_in_degree (g : graph) : gmap string Z :=
  foldl (λ m item, count_deps item.1 item.2 m) ∅ g.

(** The inner [for neighbor in graph] of the [while queue] loop, run after
    [node] has been taken from the queue. *)
Fixpoint relax (node : string) (g : graph) (in_degree : gmap string Z)
  (queue : list string) : gmap string Z * list string :=
  match g with
  | [] => (in_degree, queue)
  | (neighbor, deps) :: g' =>
      if decide (node ∈ deps) then
        let d := deg in_degree neighbor - 1 in
        relax node g' (<[neighbor := d]> in_degree)
              (if decide (d = 0) then queue ++ [neighbor] else queue)
      else relax node g' in_degree queue
  end.

(** The [while queue] loop.  [fuel] bounds the number of nodes taken from
    the queue; [None] only when it runs out. *)
Fixpoint kahn (fuel : nat) (g : graph) (in_degree : gmap string Z)
  (queue result : list string) : option (list string) :=
  match queue with
  | [] => Some result
  | node :: queue' =>
      match fuel with
      | O => None
      | S fuel' =>
          let '(in_degree', queue'') := relax node g in_degree queue' in
          kahn fuel' g in_degree' queue'' (result ++ [node])
      end
  end.

(** What [topological_sort] does: return the order, or raise
    [RuntimeError("Cyclic dependency detected among plugins!")]. *)
Inductive sort_result : Type :=
| Sorted (order : list string)
| CyclicDependency.

Definition initial_queue (g : graph) (in_degree : gmap string Z) : list string :=
  (filter (λ item, deg in_degree item.1 = 0) g).*1.

Definition topological_sort_fuel (fuel : nat) (g : graph) : option sort_result :=
  let in_degree := initial_in_degree g in
  result ← kahn fuel g in_degree (initial_queue g in_degree) [];
  Some (if decide (length result ≠ length g) then CyclicDependency
        else Sorted result).

(** Every node enters the queue at most once, so [length g] steps are
    enough (see [topological_sort_total]). *)
Definition topological_sort (g : graph) : option sort_result :=
  topological_sort_fuel (length g) g.

(** [graph[name]] for a name of the graph. *)
Definition graph_deps (g : graph) (name : string) : gset string :=
  default ∅ (dict_get g name).

(** The [for name in sorted_plugins] loop that fills [to_run]. *)
Definition select_to_run (g : graph) (sorted_plugins : list string)
  (executed : gset string) : list string :=
  filter (λ nm, (nm ∉ executed) ∧ (graph_deps g nm ⊆ executed)) sorted_plugins.

(** The [while len(executed) < len(sorted_plugins)] loop; the result lists
    the batches handed to [asyncio.gather], in order.  [None] when [fuel]
    iterations were not enough (the Python loop has no bound of its own). *)
Fixpoint wave_loop (fuel : nat) (g : graph) (sorted_plugins : list string)
  (executed : gset string) : option (list (list string)) :=
  if decide ((size executed < length sorted_plugins)%nat) then
    match fuel with
    | O => None
    | S fuel' =>
        let to_run := select_to_run g sorted_plugins executed in
        (λ ws, to_run :: ws) <$>
          wave_loop fuel' g sorted_plugins (executed ∪ list_to_set to_run)
    end
  else Some [].

(** Outcome of [orchestrate]: the batches it ran, or the error raised by
    [topological_sort] before the loop is entered. *)
Inductive orchestrate_result : Type :=
| Ran (waves : list (list string))
| CyclicDependencyError.

Definition orchestrate_fuel (fuel : nat) (plugins : list plugin_config)
  : option orchestrate_result :=
  let enabled_plugins := filter (λ p, enabled p = true) plugins in
  let g := build_dependency_graph enabled_plugins in
  sorted ← topological_sort g;
  match sorted with
  | CyclicDependency => Some CyclicDependencyError
  | Sorted sorted_plugins =>
      Ran <$> wave_loop fuel g sorted_plugins ∅
  end.

(** Every iteration of the wave loop executes at least one plugin when the
    graph was sorted, so [length plugins] iterations are enough. *)
Definition orchestrate (plugins : list plugin_config) : option orchestrate_result :=
  orchestrate_fuel (length plugins) plugins.

(** What the event loop can observe of a run: a plugin's scan starts, a
    plugin's scan is done. *)
Inductive event : Type :=
| Start (name : string)
| Done (name : string).

#[global] Instance event_eq_dec : EqDecision event.
Proof. solve_decision. Defined.

(** The awaited [asyncio.gather] of one batch: every task of the batch
    starts and finishes once, a task finishes after it started, and the
    tasks interleave freely. *)
Definition gather_trace (batch : list string) (tr : list event) : Prop :=
  (∀ ev, ev ∈ tr → ∃ n, n ∈ batch ∧ (ev = Start n ∨ ev = Done n)) ∧
  (∀ n, n ∈ batch → ∃ l1 l2 l3, tr = l1 ++ Start n :: l2 ++ Done n :: l3).

(** A trace of a whole run: the batches are awaited one after the other. *)
Definition run_trace (waves : list (list string)) (tr : list event) : Prop :=
  ∃ trs, Forall2 gather_trace waves trs ∧ tr = concat trs.

(** Dependency edges and cycles of a graph. *)
Definition edge (g : graph) (dep node : string) : Prop :=
  ∃ deps, (node, deps) ∈ g ∧ dep ∈ deps.

Definition cyclic (g : graph) : Prop := ∃ n, tc (edge g) n n.

(** Nodes released when [x] is appended to the prefix [prev] of the result:
    those that wait for [x] and for nothing outside [prev]. *)
Definition freed_by (g : graph) (prev : list string) (x : string) : list string :=
  (filter (λ item, x ∈ item.2 ∧ item.2 ⊆ list_to_set prev ∪ {[x]}) g).*1.

Fixpoint released (g : graph) (prev rest : list string) : list string :=
  match rest with
  | [] => []
  | x :: rest' => freed_by g prev x ++ released g (prev ++ [x]) rest'
  end.

(** The nodes without dependencies, in input order. *)
Definition sources (g : graph) : list string :=
  (filter (λ item, item.2 = ∅) g).*1.

(** Every dependency of a node stands strictly before it. *)
Definition respects (g : graph) (order : list string) : Prop :=
  ∀ l1 n l2 dep, order = l1 ++ n :: l2 → edge g dep n → dep ∈ l1.

(** Every dependency named in the graph is a node of the graph. *)
Definition closed (g : graph) : Prop :=
  ∀ n deps dep, (n, deps) ∈ g → dep ∈ deps → dep ∈ g.*1.

(** The plugins executed before batch number [i]. *)
Definition executed_before (ws : list (list string)) (i : nat) : gset string :=
  list_to_set (concat (take i ws)).

(** One step of the loop of [build_dependency_graph]. *)
Definition build_step (E : gset string) (g : graph) (p : plugin_config) : graph :=
  dict_set g (name p) (plugin_depends E p).

(** The plugin configurations of scenario S1 and S3. *)
Definition plug (n : string) (deps : list string) : plugin_config :=
  PluginConfig n true deps None.

Example s1_graph : build_dependency_graph [plug "A" []; plug "B" ["A"]; plug "C" ["B"; "Z"]]
  = [("A", ∅); ("B", {["A"]}); ("C", {["B"]})].
Proof. vm_compute. reflexivity. Qed.

Example s1_waves :
  orchestrate [plug "C" ["B"]; plug "A" []; plug "B" ["A"]; plug "D" []]
  = Some (Ran [["A"; "D"]; ["B"]; ["C"]]).
Proof. vm_compute. reflexivity. Qed.

Example s3_cycle :
  orchestrate [plug "A" ["B"]; plug "B" ["A"]; plug "C" []] = Some CyclicDependencyError.
Proof. vm_compute. reflexivity. Qed.

Example topo_order_ex :
  topological_sort [("D", {["B"; "C"]}); ("C", {["A"]}); ("B", {["A"]}); ("A", ∅); ("E", ∅)]
  = Some (Sorted ["A"; "E"; "C"; "B"; "D"]).
Proof. vm_compute. reflexivity. Qed.


(** *** Kahn's algorithm: the loop invariant *)

Lemma deg_insert m k v n : deg (<[k := v]> m) n = if decide (k = n) then v else deg m n.
Proof. unfold deg. rewrite lookup_insert. by case_decide. Qed.

Lemma dict_get_Some_elem {V} (d : list (string * V)) k v :
  dict_get d k = Some v → (k, v) ∈ d.
Proof.
  induction d as [|[k' v'] d IH]; simpl; [done|].
  case_decide; subst.
  - intros [= ->]. left.
  - intros. right. auto.
Qed.

Lemma dict_get_None_keys {V} (d : list (string * V)) k :
  dict_get d k = None ↔ k ∉ d.*1.
Proof.
  induction d as [|[k' v'] d IH]; simpl.
  - split; [intros _; apply not_elem_of_nil|done].
  - rewrite not_elem_of_cons. case_decide; subst; simpl; naive_solver.
Qed.

Lemma elem_dict_get {V} (d : list (string * V)) k v :
  NoDup d.*1 → (k, v) ∈ d → dict_get d k = Some v.
Proof.
  induction d as [|[k' v'] d IH]; simpl; intros Hnd Hin.
  - by apply elem_of_nil in Hin.
  - apply NoDup_cons in Hnd as [Hk Hnd].
    apply elem_of_cons in Hin as [[= -> ->]|Hin].
    + by rewrite decide_True.
    + case_decide; subst; [|auto].
      exfalso. apply Hk. apply list_elem_of_fmap. by exists (k', v).
Qed.

Lemma count_deps_spec node deps m n :
  deg (count_deps node deps m) n
  = if decide (node = n) then deg m n + Z.of_nat (size deps) else deg m n.
Proof.
  unfold count_deps, size, set_size. simpl.
  generalize (elements deps). intros l. revert m.
  induction l as [|x l IH]; intros m; simpl.
  - case_decide; lia.
  - rewrite IH, deg_insert. repeat case_decide; subst; try done; lia.
Qed.

Lemma initial_in_degree_spec_go (g : graph) m n :
  NoDup g.*1 →
  deg (foldl (λ m item, count_deps item.1 item.2 m) m g) n
  = match dict_get g n with Some ds => deg m n + Z.of_nat (size ds) | None => deg m n end.
Proof.
  revert m. induction g as [|[k ds] g IH]; intros m Hnd; simpl; [done|].
  rewrite fmap_cons in Hnd. simpl in Hnd.
  apply NoDup_cons in Hnd as [Hk Hnd].
  rewrite IH by done. rewrite count_deps_spec.
  destruct (decide (n = k)) as [->|Hne].
  - rewrite decide_True by done.
    apply dict_get_None_keys in Hk. by rewrite Hk.
  - rewrite decide_False by done. done.
Qed.

Lemma filter_ext_elem {A} (P Q : A → Prop) `{!∀ x, Decision (P x)}
  `{!∀ x, Decision (Q x)} (l : list A) :
  (∀ x, x ∈ l → (P x ↔ Q x)) → filter P l = filter Q l.
Proof.
  induction l as [|a l IH]; intros Hext; [done|].
  rewrite !filter_cons.
  rewrite IH by (intros; apply Hext; by right).
  destruct (decide (P a)) as [HP|HP].
  - rewrite decide_True; [done|]. apply Hext; [left|done].
  - rewrite decide_False; [done|]. intros HQ. apply HP, Hext; [left|done].
Qed.

(** Effect of the inner loop on the in-degrees and on the queue. *)
Lemma relax_spec x (g : graph) m q :
  NoDup g.*1 →
  (∀ n, deg (relax x g m q).1 n
        = match dict_get g n with
          | Some ds => if decide (x ∈ ds) then deg m n - 1 else deg m n
          | None => deg m n
          end) ∧
  (relax x g m q).2
  = q ++ (filter (λ item, x ∈ item.2 ∧ deg m item.1 = 1) g).*1.
Proof.
  revert m q. induction g as [|[k ds] g IH]; intros m q Hnd; simpl.
  - split; [done|]. by rewrite app_nil_r.
  - rewrite fmap_cons in Hnd. simpl in Hnd.
    apply NoDup_cons in Hnd as [Hk Hnd].
    assert (∀ (m' : gmap string Z) v,
      filter (λ item : string * gset string, x ∈ item.2 ∧ deg (<[k:=v]> m') item.1 = 1) g
      = filter (λ item, x ∈ item.2 ∧ deg m' item.1 = 1) g) as Hfil.
    { intros m' v. apply filter_ext_elem.
      intros [k' ds'] Hin. simpl. rewrite deg_insert.
      rewrite decide_False; [done|]. intros ->. apply Hk.
      apply list_elem_of_fmap. by exists (k', ds'). }
    rewrite filter_cons. simpl.
    destruct (decide (x ∈ ds)) as [Hx|Hx].
    + destruct (IH (<[k:=deg m k - 1]> m)
                   (if decide (deg m k - 1 = 0) then q ++ [k] else q) Hnd)
        as [IH1 IH2].
      split.
      * intros n. rewrite IH1. rewrite deg_insert.
        destruct (decide (n = k)) as [->|Hne].
        -- rewrite decide_True by done.
           apply dict_get_None_keys in Hk. rewrite Hk.
           rewrite decide_True by done. done.
        -- rewrite !(decide_False (P := k = n)) by done. done.
      * rewrite IH2, Hfil.
        destruct (decide (deg m k - 1 = 0)).
        -- rewrite decide_True by (split; [done|lia]).
           simpl. by rewrite <- app_assoc.
        -- rewrite decide_False by (intros [_ ?]; lia). done.
    + destruct (IH m q Hnd) as [IH1 IH2]. split.
      * intros n. rewrite IH1.
        destruct (decide (n = k)) as [->|Hne].
        -- apply dict_get_None_keys in Hk. rewrite Hk.
           by rewrite decide_False.
        -- done.
      * rewrite IH2. rewrite decide_False by (intros [? _]; done). done.
Qed.



Lemma released_snoc g prev l x :
  released g prev (l ++ [x]) = released g prev l ++ freed_by g (prev ++ l) x.
Proof.
  revert prev. induction l as [|y l IH]; intros prev; simpl.
  - by rewrite !app_nil_r.
  - rewrite IH. by rewrite <- !app_assoc.
Qed.

Section kahn_invariant.
Context (G : graph) (HG : NoDup G.*1).

Record kahn_inv (m : gmap string Z) (queue result : list string) : Prop := KahnInv {
  inv_nodup : NoDup (result ++ queue);
  inv_deg : ∀ n ds, (n, ds) ∈ G →
            deg m n = Z.of_nat (size (ds ∖ list_to_set result));
  inv_mem : ∀ n, n ∈ result ++ queue ↔
            ∃ ds, (n, ds) ∈ G ∧ ds ⊆ list_to_set result;
  inv_ord : ∀ l1 n l2 ds, result = l1 ++ n :: l2 → (n, ds) ∈ G →
            ds ⊆ list_to_set l1;
  inv_batches : result ++ queue = sources G ++ released G [] result;
}.

Lemma NoDup_filter_keys (P : string * gset string → Prop)
  `{!∀ x, Decision (P x)} : NoDup (filter P G).*1.
Proof.
  eapply sublist_NoDup; [exact HG|].
  apply fmap_sublist, sublist_filter.
Qed.

Lemma initial_in_degree_deg n ds :
  (n, ds) ∈ G → deg (initial_in_degree G) n = Z.of_nat (size ds).
Proof.
  intros Hin. unfold initial_in_degree.
  rewrite initial_in_degree_spec_go by done.
  rewrite (elem_dict_get G n ds) by done. done.
Qed.

Lemma initial_queue_sources :
  initial_queue G (initial_in_degree G) = sources G.
Proof.
  unfold initial_queue, sources. f_equal.
  apply filter_ext_elem. intros [n ds] Hin. simpl.
  rewrite (initial_in_degree_deg n ds) by done.
  split.
  - intros Hz. apply leibniz_equiv, size_empty_iff. lia.
  - intros ->. by rewrite size_empty.
Qed.

Lemma kahn_inv_init :
  kahn_inv (initial_in_degree G) (initial_queue G (initial_in_degree G)) [].
Proof.
  rewrite initial_queue_sources. split; simpl.
  - apply NoDup_filter_keys.
  - intros n ds Hin. rewrite (initial_in_degree_deg n ds) by done.
    do 2 f_equal. set_solver.
  - intros n. unfold sources. rewrite list_elem_of_fmap. split.
    + intros [[n' ds] [-> [Hds Hin]%list_elem_of_filter]]. simpl in *.
      exists ds. split; [done|]. set_solver.
    + intros [ds [Hin Hsub]]. exists (n, ds). split; [done|].
      apply list_elem_of_filter. split; [|done]. simpl. set_solver.
  - intros l1 n l2 ds Heq. by destruct l1.
  - by rewrite app_nil_r.
Qed.

Lemma size_difference_snoc (ds : gset string) (r : list string) x :
  x ∉ r → x ∈ ds →
  size (ds ∖ list_to_set r) = S (size (ds ∖ list_to_set (r ++ [x]))).
Proof.
  intros Hr Hds.
  assert (ds ∖ list_to_set (r ++ [x]) = (ds ∖ list_to_set r) ∖ ({[x]} : gset string)) as ->.
  { rewrite list_to_set_snoc_L. set_solver. }
  assert (x ∈ ds ∖ (list_to_set r : gset string)) as Hx.
  { apply elem_of_difference. split; [done|]. by rewrite elem_of_list_to_set. }
  rewrite (size_difference (ds ∖ list_to_set r) {[x]}) by set_solver.
  rewrite size_singleton.
  assert (size (ds ∖ (list_to_set r : gset string)) ≠ 0%nat); [|lia].
  intros Hz%size_empty_iff. set_solver.
Qed.

Lemma difference_snoc_notin (ds : gset string) (r : list string) x :
  x ∉ ds → ds ∖ list_to_set (r ++ [x]) = ds ∖ list_to_set r.
Proof. intros. rewrite list_to_set_snoc_L. set_solver. Qed.

Lemma kahn_inv_step m x q r :
  kahn_inv m (x :: q) r →
  kahn_inv (relax x G m q).1 (relax x G m q).2 (r ++ [x]).
Proof.
  intros [Hnd Hdeg Hmem Hord Hbat].
  destruct (relax_spec x G m q HG) as [Hm' Hq'].
  assert (x ∉ r) as Hxr.
  { apply NoDup_app in Hnd as (_ & Hdisj & _). intros Hx.
    apply (Hdisj x Hx). left. }
  assert (x ∉ q) as Hxq.
  { apply NoDup_app in Hnd as (_ & _ & Hq). by apply NoDup_cons in Hq as []. }
  assert ((filter (λ item : string * gset string, x ∈ item.2 ∧ deg m item.1 = 1) G).*1
          = freed_by G r x) as Hfreed.
  { unfold freed_by. f_equal. apply filter_ext_elem. intros [n ds] Hin. simpl.
    rewrite (Hdeg n ds Hin).
    split; intros [Hx Hs]; (split; [done|]).
    - rewrite (size_difference_snoc ds r x Hxr Hx) in Hs.
      assert (size (ds ∖ (list_to_set (r ++ [x]) : gset string)) = 0%nat) as Hz by lia.
      apply size_empty_iff in Hz. rewrite list_to_set_snoc_L in Hz.
      clear -Hz. intros y Hy.
      destruct (decide (y ∈ (list_to_set r ∪ {[x]} : gset string))) as [|Hn]; [done|].
      exfalso. set_solver.
    - rewrite (size_difference_snoc ds r x Hxr Hx).
      assert (ds ∖ (list_to_set (r ++ [x]) : gset string) = ∅) as ->.
      { rewrite list_to_set_snoc_L. clear -Hs. set_solver. }
      by rewrite size_empty. }
  rewrite Hq', Hfreed.
  assert (∀ n, n ∈ freed_by G r x ↔
               ∃ ds, (n, ds) ∈ G ∧ x ∈ ds ∧ ds ⊆ list_to_set r ∪ {[x]}) as Hfb.
  { intros n. unfold freed_by. rewrite list_elem_of_fmap. split.
    - intros [[n' ds] [-> [[? ?] ?]%list_elem_of_filter]]. simpl in *. eauto.
    - intros (ds & ? & ? & ?). exists (n, ds). split; [done|].
      apply list_elem_of_filter. done. }
  split.
  - (* no duplicates *)
    replace ((r ++ [x]) ++ q ++ freed_by G r x)
      with ((r ++ x :: q) ++ freed_by G r x)
      by (by rewrite <- !app_assoc).
    apply NoDup_app. split; [done|]. split.
    + intros n Hn Hfree. apply Hfb in Hfree as (ds & Hin & Hx & Hsub).
      apply Hmem in Hn as (ds' & Hin' & Hsub').
      assert (ds' = ds) as ->.
      { apply (elem_dict_get G _ _ HG) in Hin, Hin'. congruence. }
      apply Hxr. apply (elem_of_list_to_set (C:=gset string)).
      clear -Hx Hsub'. set_solver.
    + unfold freed_by. apply NoDup_filter_keys.
  - (* in-degrees *)
    intros n ds Hin. rewrite Hm'. rewrite (elem_dict_get G n ds HG Hin).
    rewrite (Hdeg n ds Hin). case_decide as Hx.
    + rewrite (size_difference_snoc ds r x Hxr Hx). lia.
    + by rewrite difference_snoc_notin.
  - (* membership *)
    intros n. rewrite list_to_set_snoc_L.
    replace ((r ++ [x]) ++ q ++ freed_by G r x)
      with ((r ++ x :: q) ++ freed_by G r x)
      by (by rewrite <- !app_assoc).
    rewrite elem_of_app, Hmem, Hfb. split.
    + intros [(ds & ? & Hs)|(ds & ? & ? & Hs)]; exists ds; (split; [done|]);
        clear -Hs; set_solver.
    + intros (ds & Hin & Hsub).
      destruct (decide (ds ⊆ list_to_set r)) as [?|Hns]; [left; eauto|].
      right. exists ds. split; [done|]. split; [|done].
      destruct (decide (x ∈ ds)) as [|Hnx]; [done|]. exfalso. apply Hns.
      clear -Hsub Hnx. set_solver.
  - (* order *)
    intros l1 n l2 ds Heq Hin.
    destruct l2 as [|y l2 _] using rev_ind.
    + apply app_inj_tail in Heq as [<- <-].
      assert (x ∈ r ++ x :: q) as Hx by (apply elem_of_app; right; left).
      apply Hmem in Hx as (ds' & Hin' & Hsub').
      assert (ds' = ds) as ->; [|done].
      apply (elem_dict_get G _ _ HG) in Hin, Hin'. congruence.
    + rewrite app_comm_cons, app_assoc in Heq.
      apply app_inj_tail in Heq as [-> _]. eauto.
  - (* batches *)
    rewrite released_snoc. simpl.
    rewrite (app_assoc (sources G)), <- Hbat. by rewrite <- !app_assoc.
Qed.

Lemma kahn_inv_length m q r :
  kahn_inv m q r → (length r + length q ≤ length G)%nat.
Proof.
  intros [Hnd _ Hmem _ _].
  rewrite <- length_app, <- (length_fmap fst G).
  apply submseteq_length, NoDup_submseteq; [done|].
  intros n (ds & Hin & _)%Hmem.
  apply list_elem_of_fmap. by exists (n, ds).
Qed.

Lemma kahn_total fuel m q r :
  kahn_inv m q r → (length G ≤ fuel + length r)%nat →
  ∃ res m', kahn fuel G m q r = Some res ∧ kahn_inv m' [] res.
Proof.
  revert m q r. induction fuel as [|fuel IH]; intros m q r Hinv Hfuel.
  - destruct q as [|x q]; simpl; [eauto|].
    apply kahn_inv_length in Hinv. simpl in *. lia.
  - destruct q as [|x q]; simpl; [eauto|].
    pose proof (kahn_inv_step m x q r Hinv) as Hstep.
    destruct (relax x G m q) as [m' q'] eqn:E. simpl in Hstep.
    apply IH; [done|]. rewrite length_app. simpl. lia.
Qed.

End kahn_invariant.

(** *** What the final state of the loop gives *)


Section kahn_result.
Context (G : graph) (HG : NoDup G.*1).

Lemma kahn_run :
  ∃ res m', kahn (length G) G (initial_in_degree G)
                 (initial_queue G (initial_in_degree G)) [] = Some res
            ∧ kahn_inv G m' [] res.
Proof.
  apply (kahn_total G HG); [apply (kahn_inv_init G HG)|simpl; lia].
Qed.

Lemma final_nodup m res : kahn_inv G m [] res → NoDup res.
Proof. intros [Hnd _ _ _ _]. by rewrite app_nil_r in Hnd. Qed.

Lemma final_respects m res : kahn_inv G m [] res → respects G res.
Proof.
  intros [_ _ _ Hord _] l1 n l2 dep Heq (ds & Hin & Hdep).
  specialize (Hord l1 n l2 ds Heq Hin).
  apply (elem_of_list_to_set (C:=gset string)). set_solver.
Qed.

Lemma final_keys m res n : kahn_inv G m [] res → n ∈ res → n ∈ G.*1.
Proof.
  intros [_ _ Hmem _ _] Hn. rewrite app_nil_r in Hmem.
  apply Hmem in Hn as (ds & Hin & _).
  apply list_elem_of_fmap. by exists (n, ds).
Qed.

Lemma final_complete_perm m res :
  kahn_inv G m [] res → length res = length G → res ≡ₚ G.*1.
Proof.
  intros Hinv Hlen. apply submseteq_length_Permutation.
  - apply NoDup_submseteq; [by eapply final_nodup|].
    intros n. by apply final_keys with m.
  - rewrite length_fmap. lia.
Qed.

Lemma tc_edge_target a b : tc (edge G) a b → b ∈ G.*1.
Proof.
  induction 1 as [x y (ds & Hin & _)|]; [|done].
  apply list_elem_of_fmap. by exists (y, ds).
Qed.

Lemma respects_path order a b :
  respects G order → tc (edge G) a b →
  ∀ l1 l2, order = l1 ++ b :: l2 → a ∈ l1.
Proof.
  intros Hres. induction 1 as [x y Hxy|x y z Hxy Hyz IH]; intros l1 l2 Heq.
  - by apply (Hres l1 y l2).
  - specialize (IH l1 l2 Heq).
    apply list_elem_of_split in IH as (l1' & l1'' & ->).
    rewrite <- app_assoc in Heq. simpl in Heq.
    specialize (Hres l1' y _ x Heq Hxy).
    apply elem_of_app. by left.
Qed.

Lemma cyclic_not_complete m res :
  kahn_inv G m [] res → cyclic G → length res ≠ length G.
Proof.
  intros Hinv [n Hcyc] Hlen.
  pose proof (final_complete_perm m res Hinv Hlen) as Hperm.
  assert (n ∈ res) as Hn.
  { rewrite Hperm. by apply tc_edge_target with n. }
  apply list_elem_of_split in Hn as (l1 & l2 & ->).
  pose proof (respects_path _ n n (final_respects m _ Hinv) Hcyc l1 l2 eq_refl) as Hin.
  apply final_nodup in Hinv.
  apply NoDup_app in Hinv as (_ & Hdisj & _).
  apply (Hdisj n Hin). left.
Qed.

(** A node left out of the final result waits for another node left out. *)
Lemma stuck_has_stuck_dep m res u :
  closed G → kahn_inv G m [] res → u ∈ G.*1 → u ∉ res →
  ∃ d, edge G d u ∧ d ∈ G.*1 ∧ d ∉ res.
Proof.
  intros Hcl [_ _ Hmem _ _] Hu Hnot. rewrite app_nil_r in Hmem.
  apply list_elem_of_fmap in Hu as ([u' ds] & -> & Hin). simpl in *.
  destruct (decide (ds ∖ (list_to_set res : gset string) = ∅)) as [He|Hne].
  - exfalso. apply Hnot, Hmem. exists ds. split; [done|].
    intros y Hy.
    destruct (decide (y ∈ (list_to_set res : gset string))) as [|Hn]; [done|].
    exfalso. clear -He Hy Hn. set_solver.
  - apply set_choose_L in Hne as [d Hd].
    apply elem_of_difference in Hd as [Hd Hdr].
    exists d. split; [by exists ds|]. split; [by eapply Hcl|].
    by rewrite elem_of_list_to_set in Hdr.
Qed.

Lemma no_long_chain m res k :
  closed G → kahn_inv G m [] res → ¬ cyclic G →
  ∀ h l, (length G < k + length (h :: l))%nat →
         NoDup (h :: l) →
         (∀ y, y ∈ h :: l → y ∈ G.*1 ∧ y ∉ res) →
         (∀ y, y ∈ l → tc (edge G) h y) → False.
Proof.
  intros Hcl Hinv Hac. induction k as [|k IH]; intros h l Hlen Hnd Hin Hreach.
  - assert (length (h :: l) ≤ length G.*1)%nat as Hle.
    { apply submseteq_length, NoDup_submseteq; [done|]. intros y Hy. by apply Hin. }
    rewrite length_fmap in Hle. simpl in *. lia.
  - destruct (Hin h) as [Hh Hhr]; [left|].
    destruct (stuck_has_stuck_dep m res h Hcl Hinv Hh Hhr) as (d & Hedge & Hd & Hdr).
    destruct (decide (d ∈ h :: l)) as [Hdl|Hdl].
    + apply Hac. exists h. apply elem_of_cons in Hdl as [->|Hdl].
      * by apply tc_once.
      * eapply tc_r; [by apply Hreach|done].
    + apply (IH d (h :: l)).
      * simpl in *. lia.
      * by apply NoDup_cons.
      * intros y [->|Hy]%elem_of_cons; [done|by apply Hin].
      * intros y [->|Hy]%elem_of_cons; [by apply tc_once|].
        eapply tc_l; [done|by apply Hreach].
Qed.

Lemma acyclic_complete m res :
  closed G → kahn_inv G m [] res → ¬ cyclic G → length res = length G.
Proof.
  intros Hcl Hinv Hac.
  destruct (decide (length res = length G)) as [|Hne]; [done|exfalso].
  destruct (decide (Forall (λ u, u ∈ res) G.*1)) as [Hall|Hex].
  - apply Hne. apply Nat.le_antisymm.
    + pose proof (kahn_inv_length G m [] res Hinv). simpl in *. lia.
    + rewrite <- (length_fmap fst G).
      apply submseteq_length, NoDup_submseteq; [done|].
      by apply Forall_forall.
  - apply not_Forall_Exists in Hex; [|apply _].
    apply Exists_exists in Hex as (u & Hu & Hur).
    apply (no_long_chain m res (length G) Hcl Hinv Hac u []).
    + simpl. lia.
    + apply NoDup_singleton.
    + intros y ->%list_elem_of_singleton. done.
    + intros y Hy. by apply elem_of_nil in Hy.
Qed.

End kahn_result.

(** *** The graph built from the configuration *)

Lemma dict_get_set {V} (d : list (string * V)) k v k' :
  dict_get (dict_set d k v) k' = if decide (k' = k) then Some v else dict_get d k'.
Proof.
  induction d as [|[k0 v0] d IH]; simpl.
  - by case_decide.
  - destruct (decide (k = k0)) as [->|Hne]; simpl.
    + by case_decide.
    + rewrite IH. repeat case_decide; subst; done.
Qed.

Lemma dict_set_keys {V} (d : list (string * V)) k v x :
  x ∈ (dict_set d k v).*1 ↔ x = k ∨ x ∈ d.*1.
Proof.
  induction d as [|[k0 v0] d IH]; simpl.
  - rewrite list_elem_of_singleton. set_solver.
  - destruct (decide (k = k0)) as [->|Hne]; simpl.
    + rewrite !elem_of_cons. naive_solver.
    + rewrite !elem_of_cons, IH. naive_solver.
Qed.

Lemma dict_set_nodup {V} (d : list (string * V)) k v :
  NoDup d.*1 → NoDup (dict_set d k v).*1.
Proof.
  induction d as [|[k0 v0] d IH]; simpl; intros Hnd.
  - apply NoDup_singleton.
  - apply NoDup_cons in Hnd as [Hk0 Hnd].
    destruct (decide (k = k0)) as [->|Hne]; simpl.
    + by apply NoDup_cons.
    + apply NoDup_cons. split; [|auto].
      rewrite dict_set_keys. naive_solver.
Qed.

Section build.
Context (E : gset string).


Lemma build_fold_nodup cs g : NoDup g.*1 → NoDup (foldl (build_step E) g cs).*1.
Proof.
  revert g. induction cs as [|p cs IH]; intros g Hg; simpl; [done|].
  apply IH. by apply dict_set_nodup.
Qed.

Lemma build_fold_keys cs g x :
  x ∈ (foldl (build_step E) g cs).*1 ↔ x ∈ g.*1 ∨ x ∈ name <$> cs.
Proof.
  revert g. induction cs as [|p cs IH]; intros g; simpl.
  - rewrite elem_of_nil. naive_solver.
  - rewrite IH. unfold build_step. rewrite dict_set_keys, ?fmap_cons, elem_of_cons.
    naive_solver.
Qed.

(** The graph entry of a name is computed from the last configuration
    that carries the name. *)
Lemma build_fold_get cs g n :
  dict_get (foldl (build_step E) g cs) n
  = match last (filter (λ p, name p = n) cs) with
    | Some p => Some (plugin_depends E p)
    | None => dict_get g n
    end.
Proof.
  revert g. induction cs as [|p cs IH]; intros g; simpl; [done|].
  rewrite IH. rewrite filter_cons.
  destruct (decide (name p = n)) as [<-|Hne].
  - rewrite last_cons.
    destruct (last (filter (λ p0, name p0 = name p) cs)); [done|].
    unfold build_step. by rewrite dict_get_set, decide_True.
  - unfold build_step. rewrite dict_get_set, decide_False by done. done.
Qed.

Lemma build_fold_deps cs g n ds dep :
  (∀ n ds dep, (n, ds) ∈ g → dep ∈ ds → dep ∈ E) →
  (n, ds) ∈ foldl (build_step E) g cs → dep ∈ ds → dep ∈ E.
Proof.
  revert g. induction cs as [|p cs IH]; intros g Hg; simpl; [by eauto|].
  apply IH. intros n' ds' dep' Hin Hdep.
  unfold build_step in Hin.
  assert (∀ (d : graph), (n', ds') ∈ dict_set d (name p) (plugin_depends E p) →
            (n', ds') ∈ d ∨ ds' = plugin_depends E p) as Hset.
  { clear. induction d as [|[k0 v0] d IHd]; simpl.
    - intros ?%list_elem_of_singleton. naive_solver.
    - case_decide; rewrite !elem_of_cons; naive_solver. }
  apply Hset in Hin as [Hin| ->]; [by eauto|].
  unfold plugin_depends in Hdep.
  destruct (default true (strict_dependencies p)); [|set_solver].
  apply elem_of_list_to_set, list_elem_of_filter in Hdep as [? _]. done.
Qed.

End build.

Lemma build_unfold cs :
  build_dependency_graph cs = foldl (build_step (enabled_names cs)) [] cs.
Proof. done. Qed.

Lemma build_nodup cs : NoDup (build_dependency_graph cs).*1.
Proof. rewrite build_unfold. apply build_fold_nodup. constructor. Qed.

Lemma build_keys cs x :
  x ∈ (build_dependency_graph cs).*1 ↔ x ∈ name <$> cs.
Proof. rewrite build_unfold, build_fold_keys. simpl. rewrite elem_of_nil. naive_solver. Qed.

Lemma enabled_names_spec cs x :
  x ∈ enabled_names cs ↔ ∃ p, p ∈ cs ∧ enabled p = true ∧ name p = x.
Proof.
  unfold enabled_names. rewrite elem_of_list_to_set, list_elem_of_fmap.
  split.
  - intros (p & -> & [? ?]%list_elem_of_filter). eauto.
  - intros (p & ? & ? & <-). exists p. split; [done|].
    by apply list_elem_of_filter.
Qed.

Lemma build_closed cs : closed (build_dependency_graph cs).
Proof.
  intros n ds dep Hin Hdep. apply build_keys.
  rewrite build_unfold in Hin.
  eapply build_fold_deps in Hin; [| |done].
  - apply enabled_names_spec in Hin as (p & ? & _ & <-).
    apply list_elem_of_fmap. eauto.
  - intros ??? Hnil. by apply elem_of_nil in Hnil.
Qed.

Lemma build_get_unique cs p :
  NoDup (name <$> cs) → p ∈ cs →
  dict_get (build_dependency_graph cs) (name p)
  = Some (plugin_depends (enabled_names cs) p).
Proof.
  intros Hnd Hp. rewrite build_unfold, build_fold_get.
  assert (filter (λ q, name q = name p) cs = [p]) as ->; [|done].
  clear -Hnd Hp. induction cs as [|q cs IH]; [by apply elem_of_nil in Hp|].
  rewrite fmap_cons in Hnd. apply NoDup_cons in Hnd as [Hq Hnd].
  rewrite filter_cons.
  apply elem_of_cons in Hp as [->|Hp].
  - rewrite decide_True by done. f_equal.
    clear -Hq. induction cs as [|r cs IH]; [done|].
    rewrite fmap_cons, not_elem_of_cons in Hq. destruct Hq as [Hne Hq].
    rewrite filter_cons, decide_False by done. auto.
  - rewrite decide_False; [auto|].
    intros Heq. apply Hq. rewrite Heq. apply list_elem_of_fmap. eauto.
Qed.

(** *** The wave loop *)


Lemma graph_deps_edge (g : graph) dep n :
  NoDup g.*1 → dep ∈ graph_deps g n ↔ edge g dep n.
Proof.
  intros Hg. unfold graph_deps, edge. split.
  - destruct (dict_get g n) as [ds|] eqn:E; simpl; [|set_solver].
    intros. exists ds. split; [|done]. by apply dict_get_Some_elem.
  - intros (ds & Hin & Hdep). by rewrite (elem_dict_get g n ds Hg Hin).
Qed.

Lemma elem_of_concat {A} (ls : list (list A)) (x : A) :
  x ∈ concat ls ↔ ∃ l, l ∈ ls ∧ x ∈ l.
Proof.
  induction ls as [|l ls IH]; simpl.
  - split; [by intros ?%elem_of_nil|by intros (? & ?%elem_of_nil & _)].
  - rewrite elem_of_app, IH. split.
    + intros [?|(l' & ? & ?)]; [exists l|exists l']; split; try done; [left|by right].
    + intros (l' & [->|?]%elem_of_cons & ?); [by left|right; eauto].
Qed.

Section waves.
Context (g : graph) (order : list string).
Context (Hg : NoDup g.*1) (Hnd : NoDup order) (Hres : respects g order).

Lemma first_not_executed (E : gset string) (l : list string) :
  ¬ Forall (λ n, n ∈ E) l →
  ∃ l1 n l2, l = l1 ++ n :: l2 ∧ Forall (λ n, n ∈ E) l1 ∧ n ∉ E.
Proof.
  induction l as [|a l IH]; intros Hnot.
  - destruct Hnot. constructor.
  - destruct (decide (a ∈ E)) as [Ha|Ha].
    + destruct IH as (l1 & n & l2 & -> & Hl1 & Hn).
      { intros Hall. apply Hnot. by constructor. }
      exists (a :: l1), n, l2. split; [done|]. split; [by constructor|done].
    + exists [], a, l. split; [done|]. split; [constructor|done].
Qed.

Lemma select_nodup E : NoDup (select_to_run g order E).
Proof. unfold select_to_run. by apply NoDup_filter. Qed.

Lemma select_elem E n :
  n ∈ select_to_run g order E ↔ n ∈ order ∧ n ∉ E ∧ graph_deps g n ⊆ E.
Proof. unfold select_to_run. rewrite list_elem_of_filter. naive_solver. Qed.

(** While a plugin is left, the next batch is not empty. *)
Lemma select_progress (E : gset string) :
  (size E < length order)%nat → ∃ n, n ∈ select_to_run g order E.
Proof.
  intros Hlt.
  destruct (decide (Forall (λ n, n ∈ E) order)) as [Hall|Hnot].
  - exfalso.
    assert (list_to_set order ⊆ E) as Hsub.
    { intros n Hn%elem_of_list_to_set. by eapply Forall_forall in Hall. }
    apply subseteq_size in Hsub. rewrite size_list_to_set in Hsub by done. lia.
  - apply first_not_executed in Hnot as (l1 & n & l2 & Heq & Hl1 & Hn).
    exists n. apply select_elem. split; [|split; [done|]].
    + rewrite Heq. apply elem_of_app. right. left.
    + intros dep Hdep. apply graph_deps_edge in Hdep; [|done].
      specialize (Hres l1 n l2 dep Heq Hdep).
      by eapply Forall_forall in Hl1.
Qed.

Lemma wave_loop_total fuel (E : gset string) :
  (length order ≤ fuel + size E)%nat →
  ∃ ws, wave_loop fuel g order E = Some ws.
Proof.
  revert E. induction fuel as [|fuel IH]; intros E Hfuel; simpl.
  - rewrite decide_False by lia. eauto.
  - case_decide as Hlt; [|eauto].
    destruct (select_progress E Hlt) as [n Hn].
    destruct (IH (E ∪ list_to_set (select_to_run g order E))) as [ws ->].
    + assert (E ⊂ E ∪ list_to_set (select_to_run g order E)) as Hsub.
      { apply select_elem in Hn as Hn'. destruct Hn' as (_ & HnE & _).
        split; [set_solver|]. intros Hsub. apply HnE, Hsub.
        apply elem_of_union. right. by apply elem_of_list_to_set. }
      apply subset_size in Hsub. lia.
    + simpl. eauto.
Qed.

(** Each batch is exactly the selection made from what ran before it. *)
Lemma wave_loop_waves fuel (E : gset string) ws :
  wave_loop fuel g order E = Some ws →
  ∀ i w, ws !! i = Some w →
         w = select_to_run g order (E ∪ list_to_set (concat (take i ws))).
Proof.
  revert E ws. induction fuel as [|fuel IH]; intros E ws; simpl.
  - case_decide; [done|]. intros [= <-] i w Hi. by rewrite lookup_nil in Hi.
  - case_decide; [|intros [= <-] i w Hi; by rewrite lookup_nil in Hi].
    destruct (wave_loop fuel g order _) as [ws'|] eqn:Hloop; [|done].
    simpl. intros [= <-] [|i] w Hi; simpl in *.
    + injection Hi as <-. f_equal. set_solver.
    + rewrite (IH _ _ Hloop i w Hi). f_equal.
      rewrite list_to_set_app_L. set_solver.
Qed.

Lemma wave_loop_nonempty fuel (E : gset string) ws :
  wave_loop fuel g order E = Some ws → ∀ w, w ∈ ws → w ≠ [].
Proof.
  revert E ws. induction fuel as [|fuel IH]; intros E ws; simpl.
  - case_decide; [done|]. intros [= <-] w Hw. by apply elem_of_nil in Hw.
  - case_decide as Hlt; [|intros [= <-] w Hw; by apply elem_of_nil in Hw].
    destruct (wave_loop fuel g order _) as [ws'|] eqn:Hloop; [|done].
    simpl. intros [= <-] w [->|Hw]%elem_of_cons; [|by eapply IH].
    destruct (select_progress E Hlt) as [n Hn]. intros Heq.
    rewrite Heq in Hn. by apply elem_of_nil in Hn.
Qed.

(** The loop stops only when nothing is left; nothing runs twice. *)
Lemma wave_loop_all fuel (E : gset string) ws :
  E ⊆ list_to_set order →
  wave_loop fuel g order E = Some ws →
  NoDup (concat ws) ∧
  (∀ n, n ∈ concat ws ↔ n ∈ order ∧ n ∉ E).
Proof.
  revert E ws. induction fuel as [|fuel IH]; intros E ws HE; simpl.
  - case_decide as Hlt; [done|]. intros [= <-]. simpl. split; [constructor|].
    intros n. split; [by intros ?%elem_of_nil|]. intros [Hn HnE].
    exfalso. apply HnE.
    assert (E = list_to_set order) as ->; [|by apply elem_of_list_to_set].
    apply set_subseteq_size_eq; [done|].
    rewrite size_list_to_set by done. lia.
  - case_decide as Hlt.
    + destruct (wave_loop fuel g order _) as [ws'|] eqn:Hloop; [|done].
      simpl. intros [= <-]. simpl.
      assert (E ∪ list_to_set (select_to_run g order E) ⊆ list_to_set order) as HE'.
      { intros n [?|Hn%elem_of_list_to_set]%elem_of_union; [by apply HE|].
        apply elem_of_list_to_set. by apply select_elem in Hn as []. }
      destruct (IH _ _ HE' Hloop) as [Hnd' Hmem'].
      split.
      * apply NoDup_app. split; [apply select_nodup|]. split; [|done].
        intros n Hn Hn'. apply Hmem' in Hn' as [_ Hn'].
        apply Hn'. apply elem_of_union. right. by apply elem_of_list_to_set.
      * intros n. rewrite elem_of_app, Hmem', select_elem.
        split.
        -- intros [(? & ? & ?)|(? & Hn)]; [done|]. split; [done|].
           intros ?. apply Hn. by apply elem_of_union; left.
        -- intros [Hn HnE].
           destruct (decide (n ∈ select_to_run g order E)) as [Hs|Hs].
           ++ left. by apply select_elem.
           ++ right. split; [done|].
              intros [?|?%elem_of_list_to_set]%elem_of_union; done.
    + intros [= <-]. simpl. split; [constructor|].
      intros n. split; [by intros ?%elem_of_nil|]. intros [Hn HnE].
      exfalso. apply HnE.
      assert (E = list_to_set order) as ->; [|by apply elem_of_list_to_set].
      apply set_subseteq_size_eq; [done|].
      rewrite size_list_to_set by done. lia.
Qed.

End waves.

(** *** The sort and the orchestration as a whole *)

Lemma topological_sort_run (g : graph) :
  NoDup g.*1 →
  ∃ res m, kahn_inv g m [] res ∧
           topological_sort g
           = Some (if decide (length res ≠ length g) then CyclicDependency
                   else Sorted res).
Proof.
  intros Hg. destruct (kahn_run g Hg) as (res & m & Hk & Hinv).
  exists res, m. split; [done|].
  unfold topological_sort, topological_sort_fuel. by rewrite Hk.
Qed.


Lemma build_length cs : (length (build_dependency_graph cs) ≤ length cs)%nat.
Proof.
  rewrite <- (length_fmap fst), <- (length_fmap name cs).
  apply submseteq_length, NoDup_submseteq; [apply build_nodup|].
  intros x. by rewrite build_keys.
Qed.

Section trace.
Context (g : graph) (order : list string).
Context (Hg : NoDup g.*1) (Hnd : NoDup order) (Hres : respects g order).

Lemma trace_happens_before fuel (E : gset string) ws trs (seen : list event) :
  wave_loop fuel g order E = Some ws →
  Forall2 gather_trace ws trs →
  (∀ d, d ∈ E → Done d ∈ seen) →
  ∀ t1 n t2 dep, concat trs = t1 ++ Start n :: t2 → edge g dep n →
                 Done dep ∈ seen ++ t1.
Proof.
  revert E ws trs seen. induction fuel as [|fuel IH]; intros E ws trs seen; simpl.
  - case_decide; [done|]. intros [= <-] Hf. apply Forall2_nil_inv_l in Hf as ->.
    intros _ t1 n t2 dep Heq. by destruct t1.
  - case_decide; cycle 1.
    { intros [= <-] Hf. apply Forall2_nil_inv_l in Hf as ->.
      intros _ t1 n t2 dep Heq. by destruct t1. }
    destruct (wave_loop fuel g order _) as [ws'|] eqn:Hloop; [|done].
    simpl. intros [= <-] Hf.
    apply Forall2_cons_inv_l in Hf as (blk & trs' & [Hev Hdone] & Hf & ->).
    intros Hseen t1 n t2 dep Heq Hedge. simpl in Heq.
    assert (∀ d, d ∈ E ∪ list_to_set (select_to_run g order E) →
                 Done d ∈ seen ++ blk) as Hseen'.
    { intros d [Hd|Hd%elem_of_list_to_set]%elem_of_union.
      - apply elem_of_app. left. by apply Hseen.
      - apply Hdone in Hd as (l1 & l2 & l3 & ->).
        apply elem_of_app. right. apply elem_of_app. right. right.
        apply elem_of_app. right. left. }
    apply app_eq_inv in Heq as [(k & -> & Hk)|(k & -> & Hk)].
    + destruct k as [|e k]; simpl in Hk.
      * rewrite app_nil_r in *.
        specialize (IH _ _ _ (seen ++ t1) Hloop Hf Hseen' [] n t2 dep (eq_sym Hk) Hedge).
        by rewrite app_nil_r in IH.
      * injection Hk as <- _.
        destruct (Hev (Start n)) as (n' & Hn' & [[= <-]|[=]]).
        { apply elem_of_app. right. left. }
        apply (select_elem g order) in Hn' as (_ & _ & Hsub).
        apply elem_of_app. left. apply Hseen, Hsub.
        by apply graph_deps_edge.
    + rewrite app_assoc. by eapply IH.
Qed.

End trace.

(** C3-style and C2-style statements *)

Theorem topological_sort_cyclic (g : graph) :
  NoDup g.*1 → cyclic g → topological_sort g = Some CyclicDependency.
Proof.
  intros Hg Hc. destruct (topological_sort_run g Hg) as (res & m & Hinv & ->).
  by rewrite decide_True by (by eapply cyclic_not_complete).
Qed.

Theorem topological_sort_acyclic (g : graph) :
  NoDup g.*1 → closed g → ¬ cyclic g →
  ∃ order, topological_sort g = Some (Sorted order) ∧
           order ≡ₚ g.*1 ∧ respects g order ∧
           order = sources g ++ released g [] order.
Proof.
  intros Hg Hcl Hac. destruct (topological_sort_run g Hg) as (res & m & Hinv & ->).
  pose proof (acyclic_complete g Hg m res Hcl Hinv Hac) as Hlen.
  exists res. rewrite decide_False by (intros ?; done).
  split; [done|]. split; [by eapply final_complete_perm|].
  split; [by eapply final_respects|].
  destruct Hinv as [_ _ _ _ Hb]. by rewrite app_nil_r in Hb.
Qed.

Lemma orchestrate_cyclic plugins :
  cyclic (build_dependency_graph (filter (λ p, enabled p = true) plugins)) →
  ∀ fuel, orchestrate_fuel fuel plugins = Some CyclicDependencyError.
Proof.
  intros Hc fuel. unfold orchestrate_fuel.
  rewrite topological_sort_cyclic; [done|apply build_nodup|done].
Qed.

Lemma orchestrate_acyclic plugins :
  let g := build_dependency_graph (filter (λ p, enabled p = true) plugins) in
  ¬ cyclic g →
  ∃ order ws,
    topological_sort g = Some (Sorted order) ∧
    orchestrate plugins = Some (Ran ws) ∧
    (∀ i w, ws !! i = Some w →
       w ≠ [] ∧
       ∀ n, n ∈ w ↔ n ∈ order ∧ n ∉ executed_before ws i
                    ∧ graph_deps g n ⊆ executed_before ws i) ∧
    concat ws ≡ₚ order ∧
    (∀ tr, run_trace ws tr →
       ∀ dep n t1 t2, edge g dep n → tr = t1 ++ Start n :: t2 → Done dep ∈ t1).
Proof.
  intros g Hac.
  pose proof (build_nodup (filter (λ p, enabled p = true) plugins)) as Hg.
  pose proof (build_closed (filter (λ p, enabled p = true) plugins)) as Hcl.
  fold g in Hg, Hcl.
  destruct (topological_sort_acyclic g Hg Hcl Hac) as (order & Hsort & Hperm & Hres & _).
  assert (NoDup order) as Hnd by (by rewrite Hperm).
  assert (length order ≤ length plugins)%nat as Hlen.
  { rewrite Hperm, length_fmap. etrans; [apply build_length|].
    apply length_filter. }
  destruct (wave_loop_total g order Hg Hnd Hres (length plugins) ∅) as [ws Hws].
  { lia. }
  exists order, ws. split; [done|]. split.
  { unfold orchestrate, orchestrate_fuel. fold g. rewrite Hsort. simpl.
    by rewrite Hws. }
  split; [|split].
  - intros i w Hi. split.
    + eapply wave_loop_nonempty; [exact Hg|exact Hnd|exact Hres|exact Hws|].
      by eapply list_elem_of_lookup_2.
    + intros n. pose proof (wave_loop_waves g order) as Hw.
      rewrite (Hw Hg Hnd Hres _ _ _ Hws i w Hi).
      rewrite select_elem. unfold executed_before.
      rewrite (left_id_L ∅ (∪)). done.
  - pose proof (wave_loop_all g order) as Hall.
    destruct (Hall Hnd (length plugins) ∅ ws) as [Hnd' Hmem];
      [set_solver|done|].
    apply NoDup_Permutation; [done|done|].
    intros n. rewrite Hmem. set_solver.
  - intros tr (trs & Hf & ->) dep n t1 t2 Hedge Heq.
    pose proof (trace_happens_before g order) as Hhb.
    eapply (Hhb Hg (length plugins) ∅ ws trs [] Hws Hf); [set_solver|done|done].
Qed.

(** *** The properties stated by the specification *)

(** C2 (wave dispatch).  When the dependency graph of the enabled plugins
    has no cycle, the orchestrator returns; every batch it hands to
    [asyncio.gather] is non-empty and is exactly the set of plugins of the
    sorted list that have not run and whose dependencies have all run (so
    no plugin that could run is deferred); the batches together run every
    plugin of the sorted list exactly once, which is when the loop stops;
    and in every trace in which the batches are awaited one after the
    other, a dependency is done before any of its dependents starts. *)
Theorem C2_wave_dispatch (plugins : list plugin_config) :
  let g := build_dependency_graph (filter (λ p, enabled p = true) plugins) in
  ¬ cyclic g →
  ∃ order ws,
    topological_sort g = Some (Sorted order) ∧
    orchestrate plugins = Some (Ran ws) ∧
    (∀ i w, ws !! i = Some w →
       w ≠ [] ∧
       ∀ n, n ∈ w ↔ n ∈ order ∧ n ∉ executed_before ws i
                    ∧ graph_deps g n ⊆ executed_before ws i) ∧
    concat ws ≡ₚ order ∧
    (∀ tr, run_trace ws tr →
       ∀ dep n t1 t2, edge g dep n → tr = t1 ++ Start n :: t2 → Done dep ∈ t1).
Proof. apply orchestrate_acyclic. Qed.

(** The configuration of scenario S1 (B waits for A, C waits for B), with
    an independent fourth plugin. *)
Definition s1_plugins : list plugin_config :=
  [plug "C" ["B"]; plug "A" []; plug "B" ["A"]; plug "D" []].

Lemma s1_acyclic :
  ¬ cyclic (build_dependency_graph (filter (λ p, enabled p = true) s1_plugins)).
Proof.
  intros Hc. pose proof (orchestrate_cyclic s1_plugins Hc 4%nat) as Hrun.
  vm_compute in Hrun. discriminate Hrun.
Defined.

Lemma C2_wave_dispatch_witness :
  ∃ order ws,
    topological_sort
      (build_dependency_graph (filter (λ p, enabled p = true) s1_plugins))
    = Some (Sorted order) ∧
    orchestrate s1_plugins = Some (Ran ws) ∧
    (∀ i w, ws !! i = Some w →
       w ≠ [] ∧
       ∀ n, n ∈ w ↔ n ∈ order ∧ n ∉ executed_before ws i
                    ∧ graph_deps
                        (build_dependency_graph
                           (filter (λ p, enabled p = true) s1_plugins)) n
                      ⊆ executed_before ws i) ∧
    concat ws ≡ₚ order ∧
    (∀ tr, run_trace ws tr →
       ∀ dep n t1 t2,
         edge (build_dependency_graph
                 (filter (λ p, enabled p = true) s1_plugins)) dep n →
         tr = t1 ++ Start n :: t2 → Done dep ∈ t1).
Proof. exact (C2_wave_dispatch s1_plugins s1_acyclic). Defined.

(** The result of a run, as the list of plugins whose scan was invoked. *)
Definition invoked (r : orchestrate_result) : list string :=
  match r with
  | Ran waves => concat waves
  | CyclicDependencyError => []
  end.

(** C3 (cycle rejection, topological order).  If the dependency graph of
    the enabled plugins contains a cycle, [orchestrate] fails with the
    cyclic-dependency error raised by [topological_sort], and no scan has
    been invoked.  If it contains none, [topological_sort] returns a list
    that holds every node exactly once, in which every dependency stands
    before its dependents, and in which ties are broken by input order:
    first the nodes without dependencies in input order, then, for each
    node of the result in turn, the nodes it releases, in input order. *)
Theorem C3_cycle_rejection (plugins : list plugin_config) :
  let g := build_dependency_graph (filter (λ p, enabled p = true) plugins) in
  (cyclic g →
     topological_sort g = Some CyclicDependency ∧
     ∃ r, orchestrate plugins = Some r ∧ r = CyclicDependencyError ∧ invoked r = []) ∧
  (¬ cyclic g →
     ∃ order, topological_sort g = Some (Sorted order) ∧
              order ≡ₚ g.*1 ∧ respects g order ∧
              order = sources g ++ released g [] order).
Proof.
  intros g. split.
  - intros Hc. split.
    + apply topological_sort_cyclic; [apply build_nodup|done].
    + exists CyclicDependencyError. split; [|done].
      by apply orchestrate_cyclic.
  - intros Hac. apply topological_sort_acyclic; [apply build_nodup|apply build_closed|done].
Qed.

(** In a list with distinct names every entry is the last one of its
    name. *)
Lemma last_of_unique_name cs p :
  NoDup (name <$> cs) → p ∈ cs →
  last (filter (λ q, name q = name p) cs) = Some p.
Proof.
  intros Hnd Hp.
  assert (filter (λ q, name q = name p) cs = [p]) as ->; [|done].
  induction cs as [|q cs IH]; [by apply elem_of_nil in Hp|].
  rewrite fmap_cons in Hnd. apply NoDup_cons in Hnd as [Hq Hnd].
  rewrite filter_cons.
  apply elem_of_cons in Hp as [->|Hp].
  - rewrite decide_True by done. f_equal.
    clear -Hq. induction cs as [|r cs IH]; [done|].
    rewrite fmap_cons, not_elem_of_cons in Hq. destruct Hq as [Hne Hq].
    rewrite filter_cons, decide_False by done. auto.
  - rewrite decide_False; [auto|].
    intros Heq. apply Hq. rewrite Heq. apply list_elem_of_fmap. eauto.
Qed.

(** The graph entry of a name, for every configuration list: the last
    entry that carries the name decides. *)
Lemma build_get_last cs p :
  last (filter (λ q, name q = name p) cs) = Some p →
  dict_get (build_dependency_graph cs) (name p)
  = Some (plugin_depends (enabled_names cs) p).
Proof. intros Hlast. by rewrite build_unfold, build_fold_get, Hlast. Qed.

(** C4 (dependency graph), as the code has it.  The graph is a dict keyed
    by plugin name, so for every configuration list the entry of a name is
    computed from the last configuration that carries the name (in a list
    with distinct names: from the plugin itself).  Such a configuration
    with [strict_dependencies = true] gives the name an edge from exactly
    the names of its [depends_on] that are names of enabled plugins of the
    list (the others are dropped, without error); with
    [strict_dependencies = false] it gives the name no edge, whatever its
    [depends_on]. *)
Theorem C4_dependency_graph (plugin_configs : list plugin_config)
  (p : plugin_config) :
  last (filter (λ q, name q = name p) plugin_configs) = Some p →
  let g := build_dependency_graph plugin_configs in
  (strict_dependencies p = Some true →
     ∀ dep, edge g dep (name p) ↔
            dep ∈ depends_on p ∧
            ∃ q, q ∈ plugin_configs ∧ enabled q = true ∧ name q = dep) ∧
  (strict_dependencies p = Some false →
     dict_get g (name p) = Some ∅ ∧ ∀ dep, ¬ edge g dep (name p)).
Proof.
  intros Hlast g.
  pose proof (build_get_last plugin_configs p Hlast) as Hget. fold g in Hget.
  pose proof (build_nodup plugin_configs) as Hg. fold g in Hg.
  assert (∀ dep, edge g dep (name p) ↔
                 dep ∈ plugin_depends (enabled_names plugin_configs) p) as Hedge.
  { intros dep. rewrite <- (graph_deps_edge g dep (name p) Hg).
    unfold graph_deps. by rewrite Hget. }
  split; intros Hs.
  - intros dep. rewrite Hedge. unfold plugin_depends. rewrite Hs. simpl.
    rewrite elem_of_list_to_set, list_elem_of_filter, enabled_names_spec.
    naive_solver.
  - split.
    + rewrite Hget. unfold plugin_depends. by rewrite Hs.
    + intros dep. rewrite Hedge. unfold plugin_depends. rewrite Hs. simpl.
      set_solver.
Qed.

(** Scenario S2: B depends on A, A is disabled. *)
Definition s2_plugins : list plugin_config :=
  [PluginConfig "A" false [] None;
   PluginConfig "B" true ["A"; "C"] (Some true);
   PluginConfig "C" true ["B"] (Some false)].

Lemma C4_dependency_graph_witness :
  let g := build_dependency_graph s2_plugins in
  (Some true = Some true →
     ∀ dep, edge g dep "B" ↔
            dep ∈ ["A"; "C"] ∧
            ∃ q, q ∈ s2_plugins ∧ enabled q = true ∧ name q = dep) ∧
  (Some true = Some false →
     dict_get g "B" = Some ∅ ∧ ∀ dep, ¬ edge g dep "B").
Proof.
  apply (C4_dependency_graph s2_plugins (PluginConfig "B" true ["A"; "C"] (Some true))).
  vm_compute. reflexivity.
Defined.

(** A configuration list in which the name A occurs twice: first strict
    with a dependency on the enabled plugin B, then not strict. *)
Definition repeated_name_plugins : list plugin_config :=
  [PluginConfig "A" true ["B"] (Some true);
   PluginConfig "B" true [] None;
   PluginConfig "A" true [] (Some false)].

(** C4 as worded (every strict plugin of every list gets an edge from each
    enabled name of its [depends_on]) fails on a list with a repeated
    name: the later entry of A replaces the edges of the first. *)
Lemma C4_counterexample :
  ¬ (∀ (plugin_configs : list plugin_config) (p : plugin_config) (dep : string),
       p ∈ plugin_configs → strict_dependencies p = Some true →
       dep ∈ depends_on p →
       (∃ q, q ∈ plugin_configs ∧ enabled q = true ∧ name q = dep) →
       edge (build_dependency_graph plugin_configs) dep (name p)).
Proof.
  intros Hall.
  specialize (Hall repeated_name_plugins (PluginConfig "A" true ["B"] (Some true)) "B").
  assert (edge (build_dependency_graph repeated_name_plugins) "B" "A") as Hedge.
  { apply Hall.
    - left.
    - done.
    - left.
    - exists (PluginConfig "B" true [] None). split; [right; left|done]. }
  apply graph_deps_edge in Hedge; [|apply build_nodup].
  assert (graph_deps (build_dependency_graph repeated_name_plugins) "A" = ∅) as Hempty.
  { vm_compute. reflexivity. }
  rewrite Hempty in Hedge. by apply not_elem_of_empty in Hedge.
Qed.

Example repeated_name_graph :
  build_dependency_graph repeated_name_plugins = [("A", ∅); ("B", ∅)].
Proof. vm_compute. reflexivity. Qed.

Example s2_graph :
  build_dependency_graph (filter (λ p, enabled p = true) s2_plugins)
  = [("B", {["C"]}); ("C", ∅)]
  ∧ orchestrate s2_plugins = Some (Ran [["C"]; ["B"]]).
Proof. split; vm_compute; reflexivity. Qed.

(** ** Further properties of the orchestrator *)












End Orchestrator.

(** ** core/severity.py: the severity classifier *)

Module Severity.
Import Py.
Local Open Scope nat_scope.

(** *** Regular expressions

    The patterns are kept as syntax trees of the fragment of [re] that the
    built-in table uses (literals, [.], [\d], [\b], groups with [|] and
    counted repetition) plus unbounded repetition.  Matching follows
    [re.search(pattern, text, re.IGNORECASE)] on ASCII text: only whether a
    match exists is observed. *)
Inductive regex : Type :=
| Eps
| Chr (c : ascii)
| AnyChar
| Digit
| WordB
| Seq (r1 r2 : regex)
| Alt (r1 r2 : regex)
| Rep (r : regex) (lo : nat) (hi : option nat).

(** A literal piece of text. *)
Fixpoint Lit (s : string) : regex :=
  match s with
  | EmptyString => Eps
  | String c EmptyString => Chr c
  | String c s' => Seq (Chr c) (Lit s')
  end.

(** [\bword\b] *)
Definition Word (s : string) : regex := Seq WordB (Seq (Lit s) WordB).

Fixpoint alts (rs : list regex) : regex :=
  match rs with
  | [] => Eps
  | [r] => r
  | r :: rs' => Alt r (alts rs')
  end.

(** Characters of [\w]. *)
Definition is_word (c : ascii) : bool :=
  let n := N_of_ascii c in
  ((48 <=? n) && (n <=? 57) || (65 <=? n) && (n <=? 90)
   || (97 <=? n) && (n <=? 122) || (n =? 95))%N.

Definition is_digit (c : ascii) : bool :=
  let n := N_of_ascii c in ((48 <=? n) && (n <=? 57))%N.

Definition word_before (prev : option ascii) : bool :=
  match prev with Some c => is_word c | None => false end.

Definition word_after (s : string) : bool :=
  match s with String c _ => is_word c | EmptyString => false end.

(** A matcher reads from a position (the character before it and the rest
    of the text) and hands every position it can stop at to [k]. *)
Definition matcher : Type :=
  option ascii → string → (option ascii → string → bool) → bool.

Fixpoint rep_exact (m : matcher) (n : nat) : matcher :=
  λ prev s k,
    match n with
    | O => k prev s
    | S n' => m prev s (λ p s', rep_exact m n' p s' k)
    end.

Fixpoint rep_upto (m : matcher) (n : nat) : matcher :=
  λ prev s k,
    k prev s ||
    match n with
    | O => false
    | S n' => m prev s (λ p s', rep_upto m n' p s' k)
    end.

Fixpoint rmatch (r : regex) : matcher :=
  match r with
  | Eps => λ prev s k, k prev s
  | Chr c => λ prev s k,
      match s with
      | String x s' =>
          bool_decide (lower_ascii x = lower_ascii c) && k (Some x) s'
      | EmptyString => false
      end
  | AnyChar => λ prev s k,
      match s with
      | String x s' => negb (bool_decide (x = "010"%char)) && k (Some x) s'
      | EmptyString => false
      end
  | Digit => λ prev s k,
      match s with
      | String x s' => is_digit x && k (Some x) s'
      | EmptyString => false
      end
  | WordB => λ prev s k,
      xorb (word_before prev) (word_after s) && k prev s
  | Seq r1 r2 => λ prev s k, rmatch r1 prev s (λ p s', rmatch r2 p s' k)
  | Alt r1 r2 => λ prev s k, rmatch r1 prev s k || rmatch r2 prev s k
  | Rep r lo hi => λ prev s k,
      rep_exact (rmatch r) lo prev s
        (λ p s',
           rep_upto (rmatch r)
             (match hi with
              | Some h => h - lo
              | None => String.length s'
              end) p s' k)
  end.

(** [re.search]: a match may start anywhere. *)
Fixpoint search_from (r : regex) (prev : option ascii) (s : string) : bool :=
  rmatch r prev s (λ _ _, true) ||
  match s with
  | String c s' => search_from r (Some c) s'
  | EmptyString => false
  end.

Definition search (r : regex) (text : string) : bool := search_from r None text.

(** *** The built-in table *)

Definition SEVERITY_LEVELS : list string :=
  ["critical"; "high"; "medium"; "low"; "info"].

Definition cve_id : regex :=
  Seq WordB (Seq (Lit "cve-") (Seq (Rep Digit 4 (Some 4))
    (Seq (Chr "-") (Seq (Rep Digit 4 (Some 7)) WordB)))).

Definition critical_keywords : list regex :=
  [ Seq cve_id (Seq (Rep AnyChar 0 (Some 32)) (Seq WordB (Seq
      (alts [Seq (Lit "9.") Digit; Lit "10.0"; Lit "critical"; Lit "exploit";
             Lit "remote code execution"; Lit "rce"; Lit "unauthenticated"])
      WordB)));
    Word "exploit";
    Word "remote code execution";
    Word "privilege escalation";
    Seq (Word "outdated") (Seq (Rep AnyChar 0 (Some 32)) (Word "exploit")) ].

Definition high_keywords : list regex :=
  [ cve_id; Word "exploit"; Word "anonymous"; Word "backdoor";
    Word "default credentials"; Word "unauthenticated";
    Word "deserialization"; Word "unsafe"; Word "outdated";
    Word "password reuse" ].

Definition medium_keywords : list regex :=
  [ Seq WordB (Seq (Lit "vulnerab")
      (Seq (alts [Lit "le"; Lit "ility"; Lit "ilities"]) WordB));
    Word "insecure"; Word "open"; Word "deprecated"; Word "misconfiguration" ].

Definition low_keywords : list regex :=
  [ Word "filtered"; Word "open|filtered"; Word "no-response";
    Word "timeout"; Word "info"; Word "potential"; Word "waf";
    Word "firewall" ].

(** *** The module state

    [SEVERITY_KEYWORDS] is a dict from level names to list objects.  The
    list objects live in [heap] and are named by their index; [keywords]
    is the dict.  A shallow copy of the dict shares the list objects. *)
Record store : Type := Store {
  keywords : list (string * nat);
  heap : list (list regex);
}.

Definition initial_store : store :=
  Store [("critical", 0); ("high", 1); ("medium", 2); ("low", 3)]
        [critical_keywords; high_keywords; medium_keywords; low_keywords].

(** What a call does: return a level, or raise [AttributeError] (the
    [state] of the entry has no [lower]). *)
Inductive outcome : Type :=
| Returns (severity : string)
| RaisesAttributeError.

#[global] Instance outcome_eq_dec : EqDecision outcome.
Proof. solve_decision. Defined.

Definition fields : list string :=
  ["script_output"; "output"; "msg"; "message"; "description"; "reason";
   "state"; "detail"].

(** The loop that fills [data], then [" ".join(data)]. *)
Definition entry_text (entry : gmap string pyval) : string :=
  join " " (omap (λ k, let v := get entry k in
                       if truthy v then Some (lower (str v)) else None) fields).

(** [entry.get("state", "").lower()] *)
Definition entry_state (entry : gmap string pyval) : option string :=
  match get_or entry "state" (VStr "") with
  | VStr s => Some (lower s)
  | _ => None
  end.

(** [if sev not in keywords: keywords[sev] = []] followed by
    [keywords[sev].extend(patterns)], on the copied dict [kw]. *)
Definition extend_level (acc : list (string * nat) * list (list regex))
  (item : string * list regex) : list (string * nat) * list (list regex) :=
  let '(kw, h) := acc in
  let '(sev, patterns) := item in
  match Orchestrator.dict_get kw sev with
  | Some l => (kw, alter (λ old, old ++ patterns) l h)
  | None => (Orchestrator.dict_set kw sev (length h), h ++ [patterns])
  end.

(** [keywords.get(severity, [])] *)
Definition level_patterns (kw : list (string * nat)) (h : list (list regex))
  (severity : string) : list regex :=
  match Orchestrator.dict_get kw severity with
  | Some l => default [] (h !! l)
  | None => []
  end.

(** The cascade: the first level, in the order of [levels], one of whose
    patterns is found in [text]. *)
Fixpoint cascade (kw : list (string * nat)) (h : list (list regex))
  (text : string) (levels : list string) : option string :=
  match levels with
  | [] => None
  | severity :: rest =>
      if existsb (λ pattern, search pattern text) (level_patterns kw h severity)
      then Some severity
      else cascade kw h text rest
  end.

Definition classify_severity (st : store) (entry : gmap string pyval)
  (custom_keywords : option (list (string * list regex))) : outcome * store :=
  if decide (entry = ∅) then (Returns "info", st)
  else
    let text := entry_text entry in
    match entry_state entry with
    | None => (RaisesAttributeError, st)
    | Some state =>
        if bool_decide (state ∈ ["open|filtered"; "filtered"])
        then (Returns "low", st)
        else
          let '(kw, h) :=
            foldl extend_level (keywords st, heap st) (default [] custom_keywords) in
          let st' := Store (keywords st) h in
          match cascade kw h text SEVERITY_LEVELS with
          | Some severity => (Returns severity, st')
          | None =>
              if bool_decide (state = "open") then (Returns "medium", st')
              else (Returns "info", st')
          end
    end.

(** The sample of the module's [__main__] block (scenario S4). *)
Definition sample : gmap string pyval :=
  {[ "script_output" := VStr "Anonymous FTP login allowed. CVE-2021-12345 exploit.";
     "state" := VStr "open" ]}.

Example sample_text :
  entry_text sample = "anonymous ftp login allowed. cve-2021-12345 exploit. open".
Proof. vm_compute. reflexivity. Qed.

Example sample_critical :
  (classify_severity initial_store sample None).1 = Returns "critical".
Proof. vm_compute. reflexivity. Qed.

Example search_examples :
  search cve_id "see cve-2021-12345." = true ∧
  search cve_id "see cve-2021-123." = false ∧
  search cve_id "xcve-2021-12345" = false ∧
  search (Word "open") "port is OPEN now" = true ∧
  search (Word "open") "opened" = false ∧
  search (Word "open|filtered") "state open|filtered" = true ∧
  search (Rep (Chr "a") 1 None) "bbb" = false ∧
  search (Seq (Rep (Chr "a") 1 None) (Chr "b")) "xaaab" = true.
Proof. vm_compute. repeat split. Qed.

(** The classifier as the specification words it: the [state] is compared
    as it stands. *)
Definition claimed_severity (st : store) (entry : gmap string pyval) : string :=
  let state := match get_or entry "state" (VStr "") with
               | VStr s => s
               | _ => ""
               end in
  if bool_decide (state ∈ ["filtered"; "open|filtered"]) then "low"
  else match cascade (keywords st) (heap st) (entry_text entry) SEVERITY_LEVELS with
       | Some severity => severity
       | None => if bool_decide (state = "open") then "medium" else "info"
       end.

(** A pattern of level [severity] is found in [text]. *)
Definition found (kw : list (string * nat)) (h : list (list regex))
  (text : string) (severity : string) : Prop :=
  ∃ pattern, pattern ∈ level_patterns kw h severity ∧ search pattern text = true.

Lemma existsb_found kw h text severity :
  existsb (λ pattern, search pattern text) (level_patterns kw h severity) = true
  ↔ found kw h text severity.
Proof.
  unfold found. rewrite existsb_exists. split.
  - intros (p & Hin & Hs). exists p. split; [by apply list_elem_of_In|done].
  - intros (p & Hin & Hs). exists p. split; [by apply list_elem_of_In|done].
Qed.

Lemma cascade_first kw h text levels l1 severity l2 :
  levels = l1 ++ severity :: l2 →
  found kw h text severity →
  (∀ s, s ∈ l1 → ¬ found kw h text s) →
  cascade kw h text levels = Some severity.
Proof.
  revert levels. induction l1 as [|a l1 IH]; intros levels -> Hf Hnot; simpl.
  - apply existsb_found in Hf. by rewrite Hf.
  - destruct (existsb _ (level_patterns kw h a)) eqn:E.
    + exfalso. apply (Hnot a); [left|]. by apply existsb_found.
    + apply IH; [done|done|]. intros s Hs. apply Hnot. by right.
Qed.

Lemma cascade_none kw h text levels :
  (∀ s, s ∈ levels → ¬ found kw h text s) →
  cascade kw h text levels = None.
Proof.
  induction levels as [|a levels IH]; intros Hnot; simpl; [done|].
  destruct (existsb _ (level_patterns kw h a)) eqn:E.
  - exfalso. apply (Hnot a); [left|]. by apply existsb_found.
  - apply IH. intros s Hs. apply Hnot. by right.
Qed.



(** C5 (state prelude and cascade), as the code has it.  An empty entry
    gives "info" at once.  For a non-empty entry whose [state] is text (or
    absent), with the state lower-cased first: a state "filtered" or
    "open|filtered" gives "low" whatever the patterns say; otherwise the
    result is the first level, in the order critical, high, medium, low,
    info, one of whose patterns is found in the text (so an earlier level
    wins over a later one); when no pattern is found the result is
    "medium" for the state "open" and "info" otherwise.  The sample entry
    of scenario S4 is classified "critical". *)
Theorem C5_state_prelude_and_cascade (st : store) (entry : gmap string pyval)
  (raw : string) :
  get_or entry "state" (VStr "") = VStr raw →
  let state := lower raw in
  let text := entry_text entry in
  let hit := found (keywords st) (heap st) text in
  let result := (classify_severity st entry None).1 in
  (entry = ∅ → result = Returns "info") ∧
  (entry ≠ ∅ →
     (state ∈ ["filtered"; "open|filtered"] → result = Returns "low") ∧
     (state ∉ ["filtered"; "open|filtered"] →
        (∀ l1 severity l2,
           SEVERITY_LEVELS = l1 ++ severity :: l2 →
           hit severity → (∀ s, s ∈ l1 → ¬ hit s) →
           result = Returns severity) ∧
        ((∀ s, s ∈ SEVERITY_LEVELS → ¬ hit s) →
           result = Returns (if decide (state = "open") then "medium" else "info")))) ∧
  (classify_severity initial_store sample None).1 = Returns "critical".
Proof.
  intros Hraw state text hit result. subst text hit result.
  destruct st as [kw h]. cbn [keywords heap].
  split; [|split; [|by vm_compute]].
  - intros ->. done.
  - intros Hne.
    assert (entry_state entry = Some state) as Hst.
    { unfold entry_state. by rewrite Hraw. }
    unfold classify_severity.
    rewrite decide_False by done. rewrite Hst.
    cbn [foldl default keywords heap].
    split.
    + intros Hin. rewrite bool_decide_true; [done|].
      set_solver.
    + intros Hnot. rewrite bool_decide_false by set_solver.
      split.
      * intros l1 severity l2 Heq Hhit Hfirst.
        by rewrite (cascade_first kw h _ _ l1 severity l2 Heq Hhit Hfirst).
      * intros Hnone. rewrite (cascade_none kw h _ _ Hnone).
        case_bool_decide; by case_decide.
Qed.

Lemma C5_state_prelude_and_cascade_witness :
  let entry : gmap string pyval :=
    {[ "state" := VStr "Open|Filtered"; "msg" := VStr "remote exploit" ]} in
  let state := lower "Open|Filtered" in
  let text := entry_text entry in
  let hit := found (keywords initial_store) (heap initial_store) text in
  let result := (classify_severity initial_store entry None).1 in
  (entry = ∅ → result = Returns "info") ∧
  (entry ≠ ∅ →
     (state ∈ ["filtered"; "open|filtered"] → result = Returns "low") ∧
     (state ∉ ["filtered"; "open|filtered"] →
        (∀ l1 severity l2,
           SEVERITY_LEVELS = l1 ++ severity :: l2 →
           hit severity → (∀ s, s ∈ l1 → ¬ hit s) →
           result = Returns severity) ∧
        ((∀ s, s ∈ SEVERITY_LEVELS → ¬ hit s) →
           result = Returns (if decide (state = "open") then "medium" else "info")))) ∧
  (classify_severity initial_store sample None).1 = Returns "critical".
Proof.
  apply (C5_state_prelude_and_cascade initial_store
           {[ "state" := VStr "Open|Filtered"; "msg" := VStr "remote exploit" ]}
           "Open|Filtered").
  vm_compute. reflexivity.
Defined.

(** C5 as worded (the state compared as it stands) fails on a state
    written in capitals: the code answers "low" where the cascade gives
    "critical". *)
Lemma C5_counterexample :
  ¬ (∀ entry : gmap string pyval,
       (classify_severity initial_store entry None).1
       = Returns (claimed_severity initial_store entry)).
Proof.
  intros Hall.
  specialize (Hall {[ "state" := VStr "FILTERED";
                      "script_output" := VStr "remote exploit" ]}).
  vm_compute in Hall. discriminate Hall.
Qed.

Example C5_counterexample_values :
  let entry : gmap string pyval :=
    {[ "state" := VStr "FILTERED"; "script_output" := VStr "remote exploit" ]} in
  (classify_severity initial_store entry None).1 = Returns "low" ∧
  claimed_severity initial_store entry = "critical".
Proof. split; vm_compute; reflexivity. Qed.

(** C6 (purity): the code at the failing input.  On a freshly loaded
    module the entry is classified "info"; the same entry with a custom
    pattern for "critical" is classified "critical"; that call has
    appended the custom pattern to the built-in list of "critical" (the
    copy of the table is shallow), so that a later call without custom
    keywords classifies the entry "critical" as well. *)
Theorem C6_custom_keywords_leak :
  let entry : gmap string pyval := {[ "msg" := VStr "backup finished" ]} in
  let custom := Some [("critical", [Word "backup"])] in
  let st1 := (classify_severity initial_store entry custom).2 in
  (classify_severity initial_store entry None).1 = Returns "info" ∧
  (classify_severity initial_store entry custom).1 = Returns "critical" ∧
  level_patterns (keywords st1) (heap st1) "critical"
    = critical_keywords ++ [Word "backup"] ∧
  (classify_severity st1 entry None).1 = Returns "critical".
Proof. vm_compute. repeat split. Qed.

(** ** Further properties of the classification *)










End Severity.

(** ** plugins/nmap.py: the merge rule *)

Module Nmap.
Import Py.

Definition get_important_fields : list string :=
  ["port"; "protocol"; "state"; "reason"; "service_name"; "product";
   "version"; "extra"; "cpe"; "script_output"].

(** [sorted(set(a.split("+")) | set(b.split("+")))] joined with ["+"]. *)
Definition merge_sources (a b : string) : string :=
  join "+"
    (merge_sort String.le
       (elements ((list_to_set (split "+" a) : gset string)
                  ∪ list_to_set (split "+" b)))).

(** [str(entry.get(k, "-")).strip()] *)
Definition field_text (entry : gmap string pyval) (k : string) : string :=
  strip (str (get_or entry k (VStr "-"))).

(** The inner function [is_empty] of [merge_entries]. *)
Definition is_empty (entry : gmap string pyval) : bool :=
  forallb (λ k, bool_decide (field_text entry k ∈ ["-"; ""; "null"; "None"; "0"]))
          get_important_fields.

(** The placeholders of the comparison loop of [merge_entries]. *)
Definition blank_texts : list string := ["-"; ""; "None"; "null"].

(** The loop that computes [identical]: a field passes when both texts
    are placeholders of [blank_texts] or when the texts are equal. *)
Definition identical (entry existing : gmap string pyval) : bool :=
  forallb (λ k,
             let v1 := field_text entry k in
             let v2 := field_text existing k in
             bool_decide (v1 ∈ blank_texts) && bool_decide (v2 ∈ blank_texts)
             || bool_decide (v1 = v2))
          get_important_fields.

(** The dict [merged]: keys are tuples of three or four values, kept in
    insertion order. *)
Abbreviation table := (list (list pyval * gmap string pyval)).

Fixpoint table_get (t : table) (key : list pyval) : option (gmap string pyval) :=
  match t with
  | [] => None
  | (k, v) :: t' => if decide (key = k) then Some v else table_get t' key
  end.

Fixpoint table_set (t : table) (key : list pyval) (v : gmap string pyval) : table :=
  match t with
  | [] => [(key, v)]
  | (k, v') :: t' =>
      if decide (key = k) then (key, v) :: t' else (k, v') :: table_set t' key v
  end.

(** [(entry.get("port"), entry.get("protocol"), entry.get("service_name"))] *)
Definition entry_key (entry : gmap string pyval) : list pyval :=
  [get entry "port"; get entry "protocol"; get entry "service_name"].

Section merge.

(** [format_script_output], and the order in which a set of two distinct
    texts is iterated ([true]: the first argument comes first). *)
Variable format_script_output : string → string.
Variable set_order : string → string → bool.

(** ["\n\n".join(set([a, b]))] for [a ≠ b]. *)
Definition join_pair (a b : string) : string :=
  let sep := String "010" (String "010" EmptyString) in
  if set_order a b then a +:+ sep +:+ b else b +:+ sep +:+ a.

(** The branch [if identical:]: the existing entry after the update, or
    [None] when a subscript or a string method raises. *)
Definition merge_into (existing entry : gmap string pyval)
  : option (gmap string pyval) :=
  src_old ← existing !! "source";
  src_new ← entry !! "source";
  match src_old, src_new with
  | VStr a, VStr b =>
      let existing1 := <["source" := VStr (merge_sources a b)]> existing in
      match entry !! "script_output", existing1 !! "script_output" with
      | Some out_new, Some out_old =>
          if decide (out_new = out_old) then Some existing1
          else
            match out_old, out_new with
            | VStr x, VStr y =>
                Some (<["script_output" :=
                          VStr (format_script_output (join_pair x y))]> existing1)
            | _, _ => None
            end
      | _, _ => Some existing1
      end
  | _, _ => None
  end.

(** The body of the inner loop for one non-empty entry. *)
Definition merge_step (merged : table) (entry : gmap string pyval) : option table :=
  let key := entry_key entry in
  match table_get merged key with
  | Some existing =>
      if identical entry existing then
        existing' ← merge_into existing entry;
        Some (table_set merged key existing')
      else
        src ← entry !! "source";
        Some (table_set merged (key ++ [src]) entry)
  | None => Some (table_set merged key entry)
  end.

Fixpoint merge_loop (merged : table) (entries : list (gmap string pyval))
  : option table :=
  match entries with
  | [] => Some merged
  | entry :: rest =>
      merged' ← merge_step merged entry;
      merge_loop merged' rest
  end.

Fixpoint merge_lists (merged : table) (entry_lists : list (list (gmap string pyval)))
  : option table :=
  match entry_lists with
  | [] => Some merged
  | entries :: rest =>
      merged' ← merge_loop merged (filter (λ e, is_empty e = false) entries);
      merge_lists merged' rest
  end.

(** [merge_entries( *entry_lists )]: [None] when it raises. *)
Definition merge_entries (entry_lists : list (list (gmap string pyval)))
  : option (list (gmap string pyval)) :=
  merged ← merge_lists [] entry_lists;
  Some (merged.*2).

End merge.

(** An entry as [parse] builds it for one port. *)
Definition port_entry (port : Z) (protocol service version source : string)
  : gmap string pyval :=
  {[ "port" := VInt port; "protocol" := VStr protocol; "state" := VStr "open";
     "reason" := VStr "syn-ack"; "service_name" := VStr service;
     "product" := VStr "-"; "version" := VStr version; "extra" := VStr "-";
     "cpe" := VStr "-"; "script_output" := VStr "-"; "source" := VStr source ]}.

Example merge_sources_ex :
  merge_sources "ip_tcp" "domain_tcp" = "domain_tcp+ip_tcp"
  ∧ merge_sources "domain_tcp+ip_tcp" "ip_tcp" = "domain_tcp+ip_tcp".
Proof. split; vm_compute; reflexivity. Qed.

Example merge_same_ex (f : string → string) (o : string → string → bool) :
  merge_entries f o [[port_entry 80 "tcp" "http" "2.4" "ip_tcp"];
                     [port_entry 80 "tcp" "http" "2.4" "domain_tcp"]]
  = Some [port_entry 80 "tcp" "http" "2.4" "domain_tcp+ip_tcp"].
Proof. vm_compute. reflexivity. Qed.

Example merge_differ_ex (f : string → string) (o : string → string → bool) :
  merge_entries f o [[port_entry 80 "tcp" "http" "2.4" "ip_tcp"];
                     [port_entry 80 "tcp" "http" "2.2" "domain_tcp"]]
  = Some [port_entry 80 "tcp" "http" "2.4" "ip_tcp";
          port_entry 80 "tcp" "http" "2.2" "domain_tcp"].
Proof. vm_compute. reflexivity. Qed.


Lemma identical_sym e1 e2 : identical e1 e2 = identical e2 e1.
Proof.
  unfold identical. induction get_important_fields as [|k l IH]; [done|].
  simpl. rewrite IH. f_equal.
  rewrite (andb_comm (bool_decide (field_text e1 k ∈ blank_texts))).
  f_equal. apply bool_decide_ext. naive_solver.
Qed.



Section merge_facts.
Context (f : string → string) (o : string → string → bool).




End merge_facts.

(** C1 (merge rule): the code at the failing input.  Two entries with
    the same key whose important fields either agree or both hold a
    sentinel ("0" against "-" in [version]) are not merged: the comparison
    loop of [merge_entries] does not count "0" among the placeholders, so
    the second entry is kept under the extended key. *)
Theorem C1_zero_placeholder_not_merged (f : string → string)
  (o : string → string → bool) :
  let e1 := port_entry 80 "tcp" "http" "0" "ip_tcp" in
  let e2 := port_entry 80 "tcp" "http" "-" "domain_tcp" in
  entry_key e1 = entry_key e2 ∧
  Forall (λ k, field_text e1 k = field_text e2 k
               ∨ is_sentinel (field_text e1 k) = true
                 ∧ is_sentinel (field_text e2 k) = true)
         get_important_fields ∧
  identical e2 e1 = false ∧
  merge_entries f o [[e1]; [e2]] = Some [e1; e2].
Proof.
  split; [by vm_compute|]. split; [|split; by vm_compute].
  repeat constructor; vm_compute; (by left) || (by right).
Qed.

(** ** Further properties of the merge *)









End Nmap.

(** ** core/collector.py: filtering and persistence *)

Module Collector.
Import Py.

(** [is_meaningful_entry]: not all important fields hold a sentinel. *)
Definition is_meaningful_entry (entry : gmap string pyval)
  (important_fields : list string) : bool :=
  negb (forallb
          (λ k, bool_decide
                  (strip (str (get_or entry k (VStr "-")))
                   ∈ ["-"; ""; "None"; "null"; "0"]))
          important_fields).

(** The condition of both filters of [process_temp_files]:
    [not important_fields or is_meaningful_entry(d, important_fields)]. *)
Definition kept (important_fields : list string) (entry : gmap string pyval) : bool :=
  bool_decide (important_fields = []) || is_meaningful_entry entry important_fields.

(** What the collector uses of a loaded plugin module.  [parse] is called
    with the path, the source label and, outside the merge branch, the
    port of the manifest entry; [None] stands for an exception.
    [merge_entries] is [None] when the module has no such attribute;
    [important_fields] is [[]] when it has no [get_important_fields]. *)
Record plugin_parser : Type := PluginParser {
  parse : pyval → pyval → option pyval → option (list (gmap string pyval));
  merge_entries : option (list (list (gmap string pyval))
                          → option (list (gmap string pyval)));
  important_fields : list string;
}.

(** [mapM] over [option]: the first exception ends the loop. *)
Fixpoint parse_all (f : gmap string pyval → option (list (gmap string pyval)))
  (files : list (gmap string pyval)) : option (list (list (gmap string pyval))) :=
  match files with
  | [] => Some []
  | file :: rest =>
      parsed ← f file;
      others ← parse_all f rest;
      Some (parsed :: others)
  end.

(** The parse step of the [try] block of [process_temp_files] for one
    plugin: the parsed (and, in the merge branch, merged) entries before
    the filter, or [None] when [parse] or [merge_entries] raised. *)
Definition parse_with_port (p : plugin_parser) (f : gmap string pyval)
  : option (list (gmap string pyval)) :=
  path ← f !! "path";
  parse p path (get_or f "source" (VStr "unknown")) (Some (get_or f "port" (VStr "-"))).

Definition parse_with_label (p : plugin_parser) (f : gmap string pyval)
  : option (list (gmap string pyval)) :=
  path ← f !! "path";
  parse p path (get_or f "source" (VStr "unknown")) None.

Definition candidates (p : plugin_parser) (files : list (gmap string pyval))
  : option (list (gmap string pyval)) :=
  match merge_entries p with
  | Some merge =>
      if decide (1 < length files)%nat then
        parsed_lists ← parse_all (parse_with_label p) files;
        merge parsed_lists
      else (λ parsed_lists, concat parsed_lists) <$> parse_all (parse_with_port p) files
  | None => (λ parsed_lists, concat parsed_lists) <$> parse_all (parse_with_port p) files
  end.

(** The [try] block as a whole: the entries to insert, or [None] when it
    raised (the plugin is then skipped).  Both branches filter with the
    same condition. *)
Definition collect_results (p : plugin_parser) (files : list (gmap string pyval))
  : option (list (gmap string pyval)) :=
  match merge_entries p with
  | Some merge =>
      if decide (1 < length files)%nat then
        parsed_lists ← parse_all (parse_with_label p) files;
        merged_data ← merge parsed_lists;
        Some (filter (λ d, kept (important_fields p) d = true) merged_data)
      else
        parsed_lists ← parse_all (parse_with_port p) files;
        Some (filter (λ d, kept (important_fields p) d = true) (concat parsed_lists))
  | None =>
      parsed_lists ← parse_all (parse_with_port p) files;
      Some (filter (λ d, kept (important_fields p) d = true) (concat parsed_lists))
  end.

(** *** The tables

    A column value is a [pyval]; [VNone] is SQL [NULL].  The columns
    [meta], [refs] and [created_at] (structured values and the clock) are
    left out of the rows. *)
Record host_row : Type := HostRow {
  host_id : Z;
  host_ip : pyval;
  host_fqdn : pyval;
  host_os : pyval;
}.

Record service_row : Type := ServiceRow {
  service_id : Z;
  service_host : pyval;
  service_port : pyval;
  service_protocol : pyval;
  service_name : pyval;
  service_product : pyval;
  service_version : pyval;
  service_banner : pyval;
  service_plugin : pyval;
}.

Record vuln_row : Type := VulnRow {
  vuln_id : Z;
  vuln_service : pyval;
  vuln_host : pyval;
  vuln_plugin : pyval;
  vuln_source : pyval;
  vuln_category : pyval;
  vuln_severity : pyval;
  vuln_title : pyval;
  vuln_description : pyval;
}.

Record evidence_row : Type := EvidenceRow {
  evidence_id : Z;
  evidence_vuln : pyval;
  evidence_plugin : pyval;
  evidence_log_type : pyval;
  evidence_log_path : pyval;
  evidence_raw_log : pyval;
}.

(** The database as one cursor sees it: the rows of the four tables in
    insertion order, and the next value of each table's id sequence. *)
Record db : Type := Db {
  hosts : list host_row;
  services : list service_row;
  vulns : list vuln_row;
  evidences : list evidence_row;
  next_host : Z;
  next_service : Z;
  next_vuln : Z;
  next_evidence : Z;
}.

Definition empty_db : db := Db [] [] [] [] 1 1 1 1.

(** [column = %s] in a [WHERE] clause: never true when a side is [NULL]. *)
Definition sql_eq (column param : pyval) : bool :=
  match column, param with
  | VNone, _ | _, VNone => false
  | _, _ => bool_decide (column = param)
  end.

(** [get_or_create_host] *)
Definition get_or_create_host (d : db) (ip fqdn os_name : pyval) : Z * db :=
  match list_find (λ r, sql_eq (host_ip r) ip && sql_eq (host_fqdn r) fqdn = true)
                  (hosts d) with
  | Some (_, row) => (host_id row, d)
  | None =>
      (next_host d,
       Db (hosts d ++ [HostRow (next_host d) ip fqdn os_name])
          (services d) (vulns d) (evidences d)
          (next_host d + 1) (next_service d) (next_vuln d) (next_evidence d))
  end.

(** The [WHERE] clause of [get_or_create_service]. *)
Definition service_matches (host port protocol name plugin : pyval)
  (r : service_row) : bool :=
  sql_eq (service_host r) host && sql_eq (service_port r) port
  && sql_eq (service_protocol r) protocol && sql_eq (service_name r) name
  && sql_eq (service_plugin r) plugin.

(** [get_or_create_service] *)
Definition get_or_create_service (d : db)
  (host port protocol name product version banner plugin : pyval) : Z * db :=
  match list_find (λ r, service_matches host port protocol name plugin r = true)
                  (services d) with
  | Some (_, row) => (service_id row, d)
  | None =>
      (next_service d,
       Db (hosts d)
          (services d ++ [ServiceRow (next_service d) host port protocol name
                                     product version banner plugin])
          (vulns d) (evidences d)
          (next_host d) (next_service d + 1) (next_vuln d) (next_evidence d))
  end.

(** [create_vuln] *)
Definition create_vuln (d : db)
  (service host plugin source category severity title description : pyval)
  : Z * db :=
  (next_vuln d,
   Db (hosts d) (services d)
      (vulns d ++ [VulnRow (next_vuln d) service host plugin source category
                           severity title description])
      (evidences d)
      (next_host d) (next_service d) (next_vuln d + 1) (next_evidence d)).

(** [create_evidence] *)
Definition create_evidence (d : db)
  (vuln plugin log_type log_path raw_log : pyval) : Z * db :=
  (next_evidence d,
   Db (hosts d) (services d) (vulns d)
      (evidences d ++ [EvidenceRow (next_evidence d) vuln plugin log_type
                                   log_path raw_log])
      (next_host d) (next_service d) (next_vuln d) (next_evidence d + 1)).

(** The part of the configuration that [process_temp_files] reads. *)
Record config : Type := Config {
  target_ip : pyval;
  target_domain : pyval;
  categories : list (string * pyval);
}.

(** [int(v)] for a value whose text is a digit string. *)
Definition int_of (v : pyval) : Z :=
  match v with
  | VInt n => n
  | VStr s => int_of_digits s
  | VNone => 0
  end.

(** The value given to [port]: [int(item.get("port", 0))] when the key is
    present and its text is a digit string, else [None]. *)
Definition item_port (item : gmap string pyval) : pyval :=
  match item !! "port" with
  | Some v => if isdigit (str v) then VInt (int_of v) else VNone
  | None => VNone
  end.

(** [if port and protocol and service_name:] *)
Definition service_guard (item : gmap string pyval) : bool :=
  truthy (item_port item) && truthy (get item "protocol")
  && truthy (get item "service_name").

(** The [category] of a plugin: the first configuration entry with the
    plugin's name decides ([p.get("category", "General Info")]). *)
Definition plugin_category (cfg : config) (plugin_name : string) : pyval :=
  default (VStr "General Info")
          (Orchestrator.dict_get (categories cfg) plugin_name).

(** [item.get("ip") or (ip_target if item.get("target_type") == "ip" else None)]
    and the same for the domain. *)
Definition item_ip (cfg : config) (item : gmap string pyval) : pyval :=
  or_else (get item "ip")
    (if decide (get item "target_type" = VStr "ip") then target_ip cfg else VNone).

Definition item_fqdn (cfg : config) (item : gmap string pyval) : pyval :=
  or_else (get item "fqdn")
    (if decide (get item "target_type" = VStr "domain")
     then target_domain cfg else VNone).

(** The body of the [for item in results] loop, for items without nested
    values (no [meta], so that [source] falls back to ["-"] directly),
    and without the columns left out of the rows. *)
Definition persist_item (cfg : config) (plugin_name : string) (d : db)
  (item : gmap string pyval) : db :=
  let ip := item_ip cfg item in
  let fqdn := item_fqdn cfg item in
  let '(host, d1) := get_or_create_host d ip fqdn (get item "os") in
  let port := item_port item in
  let protocol := get item "protocol" in
  let name := get item "service_name" in
  let '(service, d2) :=
    if service_guard item
    then let '(sid, d2) :=
           get_or_create_service d1 (VInt host) port protocol name
             (get item "product") (get item "version") (get item "banner")
             (VStr plugin_name) in
         (VInt sid, d2)
    else (VNone, d1) in
  let severity := get_or item "severity" (VStr "info") in
  let title := or_else (or_else (get item "title") (get item "msg")) (VStr "Finding") in
  let description :=
    or_else (or_else (get item "description") (get item "script_output")) (VStr "-") in
  let source := or_else (get item "source") (VStr "-") in
  let '(vuln, d3) :=
    create_vuln d2 service (VInt host) (VStr plugin_name) source
      (plugin_category cfg plugin_name) severity title description in
  let evidence_path := get item "evidence_path" in
  let evidence_type := get_or item "evidence_type" source in
  let d4 :=
    if truthy evidence_path
    then (create_evidence d3 (VInt vuln) (VStr plugin_name) evidence_type
            evidence_path VNone).2
    else d3 in
  let evidence := get item "evidence" in
  if truthy evidence || truthy (get item "raw_log") || truthy (get item "log_path")
  then (create_evidence d4 (VInt vuln) (VStr plugin_name)
          (get_or item "log_type" (VStr "raw")) (get item "log_path")
          (or_else evidence (get_or item "raw_log" (VStr "")))).2
  else d4.

(** One plugin of the grouped manifest: parse, filter, insert.  A plugin
    whose [try] block raised is skipped. *)
Definition process_plugin (cfg : config) (plugin_name : string)
  (p : plugin_parser) (files : list (gmap string pyval)) (d : db) : db :=
  match collect_results p files with
  | Some results => foldl (persist_item cfg plugin_name) d results
  | None => d
  end.

(** [grouped_files.setdefault(plugin_name, []).append(temp_file_info)] *)
Fixpoint group_add (groups : list (string * list (gmap string pyval)))
  (plugin_name : string) (f : gmap string pyval)
  : list (string * list (gmap string pyval)) :=
  match groups with
  | [] => [(plugin_name, [f])]
  | (n, fs) :: rest =>
      if decide (plugin_name = n) then (n, fs ++ [f]) :: rest
      else (n, fs) :: group_add rest plugin_name f
  end.

(** The first loop of [process_temp_files]: manifest entries without a
    plugin name are dropped; the others are grouped by the name (its
    text), in order of first appearance. *)
Definition group_files (temp_files : list (gmap string pyval))
  : list (string * list (gmap string pyval)) :=
  foldl (λ groups f,
           let plugin_name := get f "plugin" in
           if truthy plugin_name then group_add groups (str plugin_name) f
           else groups)
        [] temp_files.

(** [process_temp_files]: [load] is [load_plugin_parser] followed by the
    test for a [parse] attribute ([None]: the group is skipped). *)
Definition process_temp_files (cfg : config)
  (load : string → option plugin_parser)
  (temp_files : list (gmap string pyval)) (d : db) : db :=
  foldl (λ d group,
           match load group.1 with
           | Some p => process_plugin cfg group.1 p group.2 d
           | None => d
           end)
        d (group_files temp_files).

(** The identity of a service row. *)
Definition service_identity (r : service_row)
  : pyval * pyval * pyval * pyval * pyval :=
  (service_host r, service_port r, service_protocol r, service_name r,
   service_plugin r).

(** *** The command line

    [temp_file] is the value of [--temp-file] ([None] when absent),
    [purge_only] the flag [--purge-only]. *)
Record arguments : Type := Arguments {
  temp_file : option string;
  purge_only : bool;
}.

(** What [json.load] gave for the manifest. *)
Inductive manifest : Type :=
| NoPaths
| Paths (temp_files : list (gmap string pyval)).

(** The world around one run of the script: whether the manifest file
    exists, what reading it gives ([None]: [open] or [json.load] raises),
    whether the database connection and the purge succeed, and whether
    [process_temp_files] and the commit raise. *)
Record world : Type := World {
  file_exists : bool;
  file_content : option manifest;
  db_connects : bool;
  purge_succeeds : bool;
  processing_raises : bool;
}.

Inductive log_level : Type := LInfo | LError | LCritical.

(** The script as the shell sees it: the levels of the records it logged
    and its exit status. *)
Definition run : Type := list log_level * Z.

(** [collect(temp_files, purge_only)] *)
Definition collect (w : world) (temp_files : option (list (gmap string pyval)))
  (purge : bool) : run :=
  if negb (db_connects w) then ([LCritical], 1)
  else if purge then
    if purge_succeeds w then ([LInfo; LInfo; LInfo], 0)
    else ([LInfo; LInfo; LCritical], 1)
  else
    match temp_files with
    | None | Some [] => ([LInfo; LError], 0)
    | Some _ =>
        if processing_raises w then ([LInfo; LCritical], 1)
        else ([LInfo; LInfo], 0)
    end.

(** The [if __name__ == "__main__":] block. *)
Definition main (a : arguments) (w : world) : run :=
  if purge_only a then collect w None true
  else
    match temp_file a with
    | Some path =>
        if bool_decide (path = "") then ([LError], 0)
        else if file_exists w then
          match file_content w with
          | None => ([LError], 0)
          | Some NoPaths => ([LError], 1)
          | Some (Paths temp_files) => collect w (Some temp_files) false
          end
        else ([LError], 0)
    | None => ([LError], 0)
    end.

(** The text the filters look at for one field. *)
Definition field_text (entry : gmap string pyval) (k : string) : string :=
  strip (str (get_or entry k (VStr "-"))).

(** The service condition as the specification words it: the three
    fields are present and none holds a sentinel. *)
Definition claimed_service_guard (item : gmap string pyval) : bool :=
  forallb (λ k, match item !! k with
                | Some v => negb (is_sentinel (strip (str v)))
                | None => false
                end)
          ["port"; "protocol"; "service_name"].

Lemma is_meaningful_entry_spec entry fields :
  is_meaningful_entry entry fields = true ↔
  ∃ k, k ∈ fields ∧ is_sentinel (field_text entry k) = false.
Proof.
  unfold is_meaningful_entry, field_text, is_sentinel, sentinels.
  induction fields as [|k fields IH]; simpl.
  - split; [done|]. by intros (k & ?%elem_of_nil & _).
  - rewrite negb_andb. rewrite orb_true_iff, IH. split.
    + intros [Hk|(k' & Hin & Hk')].
      * exists k. split; [left|]. by apply negb_true_iff.
      * exists k'. split; [by right|done].
    + intros (k' & [->|Hin]%elem_of_cons & Hk').
      * left. by apply negb_true_iff.
      * right. eauto.
Qed.

Lemma kept_spec fields entry :
  kept fields entry = true ↔
  fields = [] ∨ ∃ k, k ∈ fields ∧ is_sentinel (field_text entry k) = false.
Proof.
  unfold kept. rewrite orb_true_iff, bool_decide_eq_true, is_meaningful_entry_spec.
  done.
Qed.

Lemma collect_results_candidates p files :
  collect_results p files
  = filter (λ d, kept (important_fields p) d = true) <$> candidates p files.
Proof.
  unfold collect_results, candidates.
  destruct (merge_entries p) as [merge|].
  - case_decide.
    + destruct (parse_all (parse_with_label p) files) as [ls|]; [|done]. simpl.
      by destruct (merge ls).
    + by destruct (parse_all (parse_with_port p) files).
  - by destruct (parse_all (parse_with_port p) files).
Qed.

(** C7 (meaningfulness filter).  Of the parsed (or merged) entries of a
    plugin, exactly those are kept for which the list of important fields
    is empty or one important field holds a text that, stripped, is not a
    sentinel; only the kept entries are inserted; and with a non-empty
    list of important fields an entry whose important fields all hold
    sentinels is never among them. *)
Theorem C7_meaningfulness_filter (p : plugin_parser)
  (files : list (gmap string pyval)) (parsed : list (gmap string pyval)) :
  candidates p files = Some parsed →
  ∃ results,
    collect_results p files = Some results ∧
    (∀ d, d ∈ results ↔
          d ∈ parsed ∧
          (important_fields p = [] ∨
           ∃ k, k ∈ important_fields p ∧ is_sentinel (field_text d k) = false)) ∧
    (∀ cfg plugin_name database,
       process_plugin cfg plugin_name p files database
       = foldl (persist_item cfg plugin_name) database results) ∧
    (important_fields p ≠ [] →
     ∀ d, (∀ k, k ∈ important_fields p → is_sentinel (field_text d k) = true) →
          d ∉ results).
Proof.
  intros Hc. eexists. rewrite collect_results_candidates, Hc. simpl.
  split; [done|].
  assert (∀ d, d ∈ filter (λ d, kept (important_fields p) d = true) parsed ↔
               d ∈ parsed ∧
               (important_fields p = [] ∨
                ∃ k, k ∈ important_fields p ∧ is_sentinel (field_text d k) = false))
    as Hmem.
  { intros d. rewrite list_elem_of_filter, kept_spec. naive_solver. }
  split; [done|]. split.
  - intros cfg plugin_name database. unfold process_plugin.
    by rewrite collect_results_candidates, Hc.
  - intros Hne d Hall [_ [?|(k & Hk & Hs)]]%Hmem; [done|].
    rewrite (Hall k Hk) in Hs. done.
Qed.

(** A parser in the manner of nikto's: one finding without a message and
    one with a message, [msg] being the important field. *)
Definition demo_findings : list (gmap string pyval) :=
  [ {[ "msg" := VStr "-"; "url" := VStr "/" ]};
    {[ "msg" := VStr "Server leaks inodes via ETags"; "url" := VStr "/" ]} ].

Definition demo_parser : plugin_parser :=
  PluginParser (λ _ _ _, Some demo_findings) None ["msg"].

Definition demo_files : list (gmap string pyval) :=
  [ {[ "plugin" := VStr "nikto"; "path" := VStr "/tmp/nikto.json" ]} ].

Lemma C7_meaningfulness_filter_witness :
  ∃ results,
    collect_results demo_parser demo_files = Some results ∧
    (∀ d, d ∈ results ↔
          d ∈ demo_findings ∧
          (important_fields demo_parser = [] ∨
           ∃ k, k ∈ important_fields demo_parser
                ∧ is_sentinel (field_text d k) = false)) ∧
    (∀ cfg plugin_name database,
       process_plugin cfg plugin_name demo_parser demo_files database
       = foldl (persist_item cfg plugin_name) database results) ∧
    (important_fields demo_parser ≠ [] →
     ∀ d, (∀ k, k ∈ important_fields demo_parser
                → is_sentinel (field_text d k) = true) →
          d ∉ results).
Proof.
  apply (C7_meaningfulness_filter demo_parser demo_files demo_findings).
  vm_compute. reflexivity.
Defined.

Example demo_results :
  collect_results demo_parser demo_files
  = Some [ {[ "msg" := VStr "Server leaks inodes via ETags"; "url" := VStr "/" ]} ].
Proof. vm_compute. reflexivity. Qed.

Lemma sql_eq_true a b : sql_eq a b = true ↔ a = b ∧ a ≠ VNone.
Proof.
  destruct a, b; simpl; rewrite ?bool_decide_eq_true; naive_solver.
Qed.

Lemma service_matches_identity host port protocol name plugin r :
  service_matches host port protocol name plugin r = true ↔
  service_identity r = (host, port, protocol, name, plugin) ∧
  host ≠ VNone ∧ port ≠ VNone ∧ protocol ≠ VNone ∧ name ≠ VNone ∧ plugin ≠ VNone.
Proof.
  unfold service_matches, service_identity.
  rewrite !andb_true_iff, !sql_eq_true. split.
  - intros [[[[[<- ?] [<- ?]] [<- ?]] [<- ?]] [<- ?]]. done.
  - intros ([= <- <- <- <- <-] & ? & ? & ? & ? & ?). done.
Qed.

Section services.
Context (host port protocol name plugin : pyval).
Context (Hhost : host ≠ VNone) (Hport : port ≠ VNone) (Hproto : protocol ≠ VNone)
        (Hname : name ≠ VNone) (Hplugin : plugin ≠ VNone).

Lemma get_or_create_service_row d product version banner :
  let r := get_or_create_service d host port protocol name product version banner plugin in
  ∃ row, row ∈ services r.2 ∧ service_id row = r.1 ∧
         service_identity row = (host, port, protocol, name, plugin).
Proof.
  unfold get_or_create_service.
  destruct (list_find _ (services d)) as [[i row]|] eqn:Hfind; simpl.
  - apply list_find_Some in Hfind as (Hi & Hm & _).
    exists row. split; [by eapply list_elem_of_lookup_2|]. split; [done|].
    by apply service_matches_identity in Hm as [? _].
  - eexists. split; [apply elem_of_app; right; left|]. done.
Qed.

Lemma get_or_create_service_again d product version banner product' version' banner' :
  let r := get_or_create_service d host port protocol name product version banner plugin in
  get_or_create_service r.2 host port protocol name product' version' banner' plugin = r.
Proof.
  unfold get_or_create_service.
  destruct (list_find _ (services d)) as [[i row]|] eqn:Hfind; simpl.
  - by rewrite Hfind.
  - rewrite list_find_app_r by done. simpl.
    rewrite decide_True; [done|].
    apply service_matches_identity. done.
Qed.

Lemma get_or_create_service_nodup d product version banner :
  NoDup (service_identity <$> services d) →
  NoDup (service_identity <$>
           services (get_or_create_service d host port protocol name
                       product version banner plugin).2).
Proof.
  intros Hnd. unfold get_or_create_service.
  destruct (list_find _ (services d)) as [[i row]|] eqn:Hfind; simpl; [done|].
  rewrite fmap_app. apply NoDup_app. split; [done|]. split; [|apply NoDup_singleton].
  intros idn Hin ->%list_elem_of_singleton.
  apply list_elem_of_fmap in Hin as (r & Hid & Hr).
  apply list_find_None in Hfind. eapply Forall_forall in Hfind; [|done].
  apply Hfind. apply service_matches_identity. done.
Qed.

End services.

Lemma get_or_create_host_services d ip fqdn os_name :
  services (get_or_create_host d ip fqdn os_name).2 = services d.
Proof.
  unfold get_or_create_host.
  by destruct (list_find _ (hosts d)) as [[i row]|].
Qed.

(** What an item does to the services table. *)
Lemma persist_item_services cfg plugin_name d item :
  let hd := get_or_create_host d (item_ip cfg item) (item_fqdn cfg item)
              (get item "os") in
  services (persist_item cfg plugin_name d item)
  = if service_guard item
    then services (get_or_create_service hd.2 (VInt hd.1) (item_port item)
                     (get item "protocol") (get item "service_name")
                     (get item "product") (get item "version")
                     (get item "banner") (VStr plugin_name)).2
    else services d.
Proof.
  intros hd. unfold persist_item. fold hd.
  pose proof (get_or_create_host_services d (item_ip cfg item)
                (item_fqdn cfg item) (get item "os")) as Hh. fold hd in Hh.
  destruct hd as [h d1]. simpl in Hh. simpl.
  destruct (service_guard item).
  - destruct (get_or_create_service d1 _ _ _ _ _ _ _ _) as [sid d2]. simpl.
    destruct (truthy (get item "evidence_path"));
      destruct (truthy (get item "evidence") || truthy (get item "raw_log")
                || truthy (get item "log_path")); reflexivity.
  - simpl.
    destruct (truthy (get item "evidence_path"));
      destruct (truthy (get item "evidence") || truthy (get item "raw_log")
                || truthy (get item "log_path")); simpl; by rewrite <- Hh.
Qed.

Lemma truthy_not_none v : truthy v = true → v ≠ VNone.
Proof. by destruct v. Qed.

Lemma service_guard_spec item :
  service_guard item = true ↔
  ∃ v, item !! "port" = Some v ∧ isdigit (str v) = true ∧ int_of v ≠ 0 ∧
       truthy (get item "protocol") = true ∧
       truthy (get item "service_name") = true.
Proof.
  unfold service_guard, item_port. rewrite !andb_true_iff.
  destruct (item !! "port") as [v|]; simpl.
  - destruct (isdigit (str v)) eqn:Hd; simpl.
    + rewrite negb_true_iff, Z.eqb_neq. split.
      * intros [[? ?] ?]. exists v. done.
      * intros (v' & [= <-] & _ & ? & ? & ?). done.
    + split; [by intros [[? ?] ?]|].
      intros (v' & [= <-] & ? & _). congruence.
  - split; [by intros [[? ?] ?]|]. by intros (v' & ? & _).
Qed.

(** C8 (service rows), as the code has it.  A service row is looked up or
    created for an item iff its [port] is present with a digit text and a
    non-zero value and its [protocol] and [service_name] are true values
    (a sentinel such as "-" is one); the row then carries the identity
    (host id, port, protocol, service name, plugin); a table without two
    rows of the same identity stays so; and calling
    [get_or_create_service] again with the same identity (no [NULL] in it)
    returns the same id and leaves the table as it is. *)
Theorem C8_service_rows (cfg : config) (plugin_name : string) (d : db)
  (item : gmap string pyval) :
  NoDup (service_identity <$> services d) →
  let d' := persist_item cfg plugin_name d item in
  (service_guard item = true ↔
     ∃ v, item !! "port" = Some v ∧ isdigit (str v) = true ∧ int_of v ≠ 0 ∧
          truthy (get item "protocol") = true ∧
          truthy (get item "service_name") = true) ∧
  (service_guard item = false → services d' = services d) ∧
  (service_guard item = true →
     ∃ host row, row ∈ services d' ∧
       service_identity row
       = (VInt host, item_port item, get item "protocol",
          get item "service_name", VStr plugin_name)) ∧
  NoDup (service_identity <$> services d') ∧
  (∀ database host port protocol name product version banner plugin
     product' version' banner',
     host ≠ VNone → port ≠ VNone → protocol ≠ VNone → name ≠ VNone →
     plugin ≠ VNone →
     let r := get_or_create_service database host port protocol name
                product version banner plugin in
     get_or_create_service r.2 host port protocol name product' version'
       banner' plugin = r).
Proof.
  intros Hnd d'. split; [apply service_guard_spec|].
  subst d'. rewrite persist_item_services.
  set (hd := get_or_create_host d _ _ _).
  pose proof (get_or_create_host_services d (item_ip cfg item)
                (item_fqdn cfg item) (get item "os")) as Hh. fold hd in Hh.
  destruct (service_guard item) eqn:Hg.
  - assert (item_port item ≠ VNone ∧ get item "protocol" ≠ VNone
            ∧ get item "service_name" ≠ VNone) as (Hp & Hpr & Hn).
    { unfold service_guard in Hg. rewrite !andb_true_iff in Hg.
      destruct Hg as [[? ?] ?]. repeat split; by apply truthy_not_none. }
    split; [done|]. split; [|split].
    + intros _. exists hd.1.
      destruct (get_or_create_service_row (VInt hd.1) (item_port item)
                  (get item "protocol") (get item "service_name")
                  (VStr plugin_name) hd.2 (get item "product")
                  (get item "version") (get item "banner"))
        as (row & Hin & _ & Hid).
      exists row. done.
    + apply get_or_create_service_nodup; [done..|by rewrite Hh].
    + intros. by apply get_or_create_service_again.
  - split; [done|]. split; [done|]. split; [done|].
    intros. by apply get_or_create_service_again.
Qed.

Definition http_item : gmap string pyval :=
  {[ "ip" := VStr "10.0.0.1"; "port" := VInt 80; "protocol" := VStr "tcp";
     "service_name" := VStr "http"; "source" := VStr "ip_tcp" ]}.

Definition demo_config : config :=
  Config (VStr "10.0.0.1") (VStr "example.org") [("nmap", VStr "Network")].

Lemma C8_service_rows_witness :
  let d' := persist_item demo_config "nmap" empty_db http_item in
  (service_guard http_item = true ↔
     ∃ v, http_item !! "port" = Some v ∧ isdigit (str v) = true ∧ int_of v ≠ 0 ∧
          truthy (get http_item "protocol") = true ∧
          truthy (get http_item "service_name") = true) ∧
  (service_guard http_item = false → services d' = services empty_db) ∧
  (service_guard http_item = true →
     ∃ host row, row ∈ services d' ∧
       service_identity row
       = (VInt host, item_port http_item, get http_item "protocol",
          get http_item "service_name", VStr "nmap")) ∧
  NoDup (service_identity <$> services d') ∧
  (∀ database host port protocol name product version banner plugin
     product' version' banner',
     host ≠ VNone → port ≠ VNone → protocol ≠ VNone → name ≠ VNone →
     plugin ≠ VNone →
     let r := get_or_create_service database host port protocol name
                product version banner plugin in
     get_or_create_service r.2 host port protocol name product' version'
       banner' plugin = r).
Proof.
  apply (C8_service_rows demo_config "nmap" empty_db http_item).
  simpl. apply NoDup_nil_2.
Defined.

(** A service row is created for a service name that is a sentinel. *)
Lemma C8_counterexample :
  ¬ (∀ item : gmap string pyval,
       service_guard item = claimed_service_guard item).
Proof.
  intros Hall.
  specialize (Hall {[ "port" := VInt 80; "protocol" := VStr "tcp";
                      "service_name" := VStr "-" ]}).
  vm_compute in Hall. discriminate Hall.
Qed.

Example sentinel_service_row :
  services (persist_item demo_config "nmap" empty_db
              {[ "ip" := VStr "10.0.0.1"; "port" := VInt 80;
                 "protocol" := VStr "tcp"; "service_name" := VStr "-" ]})
  = [ServiceRow 1 (VInt 1) (VInt 80) (VStr "tcp") (VStr "-") VNone VNone VNone
       (VStr "nmap")].
Proof. vm_compute. reflexivity. Qed.

(** C9 (exit status): the code at the failing inputs.  With neither
    [--temp-file] nor [--purge-only], and with [--temp-file] naming a
    file that does not exist, the script logs one error and ends with
    exit status 0. *)
Theorem C9_error_paths_exit_zero (w : world) (path : string) :
  main (Arguments None false) w = ([LError], 0) ∧
  main (Arguments (Some path) false)
       (World false (file_content w) (db_connects w) (purge_succeeds w)
              (processing_raises w))
  = ([LError], 0).
Proof.
  split; [done|]. unfold main. simpl. by case_bool_decide.
Qed.

(** ** Further properties of the collector *)










End Collector.

(** ** core/registry.py: the target registry *)

Module Registry.
Import Py.

(** A row of the [registry] table; [VNone] is SQL [NULL], [created_at]
    and [updated_at] are clock readings. *)
Record registry_row : Type := RegistryRow {
  row_id : Z;
  target_type : pyval;
  target_value : pyval;
  port : pyval;
  protocol : pyval;
  source_plugin : pyval;
  status : pyval;
  tags : list string;
  meta : gmap string pyval;
  created_at : Z;
  updated_at : Z;
}.

(** The table: its rows in insertion order and the next value of its id
    sequence. *)
Record registry : Type := Registry {
  rows : list registry_row;
  next_id : Z;
}.

Definition empty_registry : registry := Registry [] 1.

(** The tuple named by [ON CONFLICT]. *)
Definition row_key (r : registry_row) : pyval * pyval * pyval * pyval :=
  (target_type r, target_value r, port r, protocol r).

(** What [get_targets] selects of a row:
    [(id, target_type, target_value, port, protocol, status, tags, meta)]. *)
Definition target_view : Type :=
  Z * pyval * pyval * pyval * pyval * pyval * list string * gmap string pyval.

Definition view (r : registry_row) : target_view :=
  (row_id r, target_type r, target_value r, port r, protocol r, status r,
   tags r, meta r).

(** [column = %s] in a [WHERE] clause: never true when a side is [NULL]. *)
Definition sql_eq (column param : pyval) : bool :=
  match column, param with
  | VNone, _ | _, VNone => false
  | _, _ => bool_decide (column = param)
  end.

(** One optional filter of [get_targets]: a filter that is [None] or
    empty is not applied. *)
Definition passes (filter column : pyval) : bool :=
  if truthy filter then sql_eq column filter else true.

(** [tags && %s]: the two arrays share an element. *)
Definition overlaps (a b : list string) : bool :=
  existsb (λ t, bool_decide (t ∈ b)) a.

(** [get_targets] *)
Definition get_targets (reg : registry)
  (filter_status filter_type filter_plugin : pyval)
  (filter_tags : list string) (filter_protocol : pyval) : list target_view :=
  view <$>
    filter (λ r, passes filter_status (status r)
                 && passes filter_type (target_type r)
                 && passes filter_plugin (source_plugin r)
                 && (match filter_tags with
                     | [] => true
                     | _ => overlaps (tags r) filter_tags
                     end)
                 && passes filter_protocol (protocol r) = true)
           (rows reg).



Section upsert.

(** Modelled from the spec: the unique index of the [registry] table on
    [(target_type, target_value, port, protocol)], whose declaration is
    not part of the sources.  [conflicts k k'] tells whether a row with
    key [k] stands in the way of inserting a row with key [k']. *)
Variable conflicts :
  pyval * pyval * pyval * pyval → pyval * pyval * pyval * pyval → bool.

(** The [DO UPDATE SET status = EXCLUDED.status, updated_at =
    EXCLUDED.updated_at] part. *)
Definition excluded_update (r : registry_row) (new_status : pyval) (now : Z)
  : registry_row :=
  RegistryRow (row_id r) (target_type r) (target_value r) (port r) (protocol r)
    (source_plugin r) new_status (tags r) (meta r) (created_at r) now.

(** [add_target]: [tags] and [meta] are the arguments after
    [tags or []] and [meta or {}]; the result is the returned id and the
    table after the commit. *)
Definition add_target (reg : registry) (now : Z)
  (target_type target_value port protocol source_plugin : pyval)
  (tags : list string) (meta : gmap string pyval) (status : pyval)
  : Z * registry :=
  let key := (target_type, target_value, port, protocol) in
  match list_find (λ r, conflicts (row_key r) key = true) (rows reg) with
  | Some (i, r) =>
      (row_id r,
       Registry (<[i := excluded_update r status now]> (rows reg)) (next_id reg))
  | None =>
      (next_id reg,
       Registry (rows reg ++ [RegistryRow (next_id reg) target_type target_value
                                port protocol source_plugin status tags meta
                                now now])
                (next_id reg + 1))
  end.

End upsert.

(** The index as PostgreSQL builds it by default: equal tuples conflict,
    [NULL] is distinct from everything. *)
Definition default_conflicts (k k' : pyval * pyval * pyval * pyval) : bool :=
  let '(a, b, c, d) := k in
  let '(a', b', c', d') := k' in
  sql_eq a a' && sql_eq b b' && sql_eq c c' && sql_eq d d'.

(** The call of the module's [__main__] block. *)
Example add_target_main :
  add_target default_conflicts empty_registry 100 (VStr "ip") (VStr "8.8.8.8")
    (VInt 80) (VStr "tcp") (VStr "nmap") ["web"] {[ "service" := VStr "http" ]}
    (VStr "new")
  = (1, Registry [RegistryRow 1 (VStr "ip") (VStr "8.8.8.8") (VInt 80) (VStr "tcp")
                    (VStr "nmap") (VStr "new") ["web"]
                    {[ "service" := VStr "http" ]} 100 100] 2).
Proof. vm_compute. reflexivity. Qed.

Section upsert_facts.
Context (conflicts : pyval * pyval * pyval * pyval → pyval * pyval * pyval * pyval → bool).

Lemma excluded_update_key r s now : row_key (excluded_update r s now) = row_key r.
Proof. done. Qed.

Lemma filter_length_insert {A} (P : A → Prop) `{!∀ x, Decision (P x)}
  (l : list A) i x y :
  l !! i = Some x → (P x ↔ P y) →
  length (filter P (<[i := y]> l)) = length (filter P l).
Proof.
  revert i. induction l as [|a l IH]; intros [|i] Hi Hiff; simpl in *; try done.
  - injection Hi as ->. rewrite !filter_cons.
    destruct (decide (P y)), (decide (P x)); simpl; tauto.
  - rewrite !filter_cons. destruct (decide (P a)); simpl; rewrite IH; done.
Qed.

(** After a call, the row of the key is found, carries the returned id
    and the given status. *)
Lemma add_target_finds reg now tt tv po pr sp tg me st :
  conflicts (tt, tv, po, pr) (tt, tv, po, pr) = true →
  let res := add_target conflicts reg now tt tv po pr sp tg me st in
  ∃ i r, list_find (λ r, conflicts (row_key r) (tt, tv, po, pr) = true)
                   (rows res.2) = Some (i, r)
         ∧ row_id r = res.1 ∧ status r = st ∧ updated_at r = now
         ∧ row_key r = (tt, tv, po, pr) ∨
           list_find (λ r, conflicts (row_key r) (tt, tv, po, pr) = true)
                   (rows res.2) = Some (i, r)
         ∧ row_id r = res.1 ∧ status r = st ∧ updated_at r = now
         ∧ ∃ r0, list_find (λ r, conflicts (row_key r) (tt, tv, po, pr) = true)
                   (rows reg) = Some (i, r0) ∧ r = excluded_update r0 st now.
Proof.
  intros Hrefl res. subst res. unfold add_target.
  destruct (list_find _ (rows reg)) as [[i r0]|] eqn:Hfind; simpl.
  - exists i, (excluded_update r0 st now). right.
    split; [|split; [done|split; [done|split; [done|eauto]]]].
    apply list_find_Some in Hfind as (Hi & Hm & Hbefore).
    apply list_find_Some. split; [|split].
    + apply list_lookup_insert_eq. by eapply lookup_lt_Some.
    + done.
    + intros j y Hj Hlt. rewrite list_lookup_insert_ne in Hj by lia.
      by eapply Hbefore.
  - eexists _, _. left. rewrite list_find_app_r by done. simpl.
    rewrite decide_True by done. simpl. done.
Qed.

Lemma add_target_count reg now tt tv po pr sp tg me st :
  conflicts (tt, tv, po, pr) (tt, tv, po, pr) = true →
  (length (filter (λ r, conflicts (row_key r) (tt, tv, po, pr) = true) (rows reg)) ≤ 1)%nat →
  length (filter (λ r, conflicts (row_key r) (tt, tv, po, pr) = true)
            (rows (add_target conflicts reg now tt tv po pr sp tg me st).2)) = 1%nat.
Proof.
  intros Hrefl Hone. unfold add_target.
  destruct (list_find _ (rows reg)) as [[j r0]|] eqn:Hf0; simpl.
  - apply list_find_Some in Hf0 as (Hj & Hm & _).
    rewrite (filter_length_insert _ _ j r0) by done.
    assert (r0 ∈ filter (λ r, conflicts (row_key r) (tt, tv, po, pr) = true)
              (rows reg)) as Hin.
    { apply list_elem_of_filter. split; [done|]. by eapply list_elem_of_lookup_2. }
    destruct (filter _ (rows reg)); [by apply elem_of_nil in Hin|].
    simpl in *. lia.
  - rewrite filter_app. apply list_find_None in Hf0.
    assert (filter (λ r, conflicts (row_key r) (tt, tv, po, pr) = true)
              (rows reg) = []) as ->.
    { clear -Hf0. induction (rows reg) as [|a l IH]; [done|].
      apply Forall_cons in Hf0 as [Ha Hl]. rewrite filter_cons.
      rewrite decide_False by done. auto. }
    rewrite filter_cons, decide_True by done. done.
Qed.

End upsert_facts.

(** C10 (upsert).  When the unique index lets the tuple conflict with
    itself and the table holds at most one row for it, two calls of
    [add_target] with the tuple return the same id and leave exactly one
    row for it; the second call changes nothing but [status] and
    [updated_at] of that row (source plugin, tags, meta and creation time
    stay those of the row, every other row stays); and reading all
    targets gives the row with the status written last. *)
Theorem C10_add_target_upsert
  (conflicts : pyval * pyval * pyval * pyval → pyval * pyval * pyval * pyval → bool)
  (reg : registry) (now1 now2 : Z)
  (tt tv po pr : pyval)
  (sp1 sp2 : pyval) (tags1 tags2 : list string) (meta1 meta2 : gmap string pyval)
  (st1 st2 : pyval) :
  conflicts (tt, tv, po, pr) (tt, tv, po, pr) = true →
  (length (filter (λ r, conflicts (row_key r) (tt, tv, po, pr) = true) (rows reg)) ≤ 1)%nat →
  let first := add_target conflicts reg now1 tt tv po pr sp1 tags1 meta1 st1 in
  let second := add_target conflicts first.2 now2 tt tv po pr sp2 tags2 meta2 st2 in
  second.1 = first.1 ∧
  length (filter (λ r, conflicts (row_key r) (tt, tv, po, pr) = true)
                 (rows second.2)) = 1%nat ∧
  (∃ i r1,
     rows first.2 !! i = Some r1 ∧ row_id r1 = first.1 ∧
     rows second.2
     = <[i := RegistryRow (row_id r1) (target_type r1) (target_value r1)
                (port r1) (protocol r1) (source_plugin r1) st2 (tags r1)
                (meta r1) (created_at r1) now2]> (rows first.2) ∧
     (first.1, target_type r1, target_value r1, port r1, protocol r1, st2,
      tags r1, meta r1)
     ∈ get_targets second.2 VNone VNone VNone [] VNone).
Proof.
  intros Hrefl Hone first second.
  destruct (add_target_finds conflicts reg now1 tt tv po pr sp1 tags1 meta1 st1 Hrefl)
    as (i & r1 & Hcases).
  fold first in Hcases.
  assert (list_find (λ r, conflicts (row_key r) (tt, tv, po, pr) = true)
            (rows first.2) = Some (i, r1) ∧ row_id r1 = first.1) as [Hfind Hid].
  { destruct Hcases as [(? & ? & _)|(? & ? & _)]; done. }
  pose proof (add_target_count conflicts reg now1 tt tv po pr sp1 tags1 meta1 st1
                Hrefl Hone) as Hcount.
  fold first in Hcount.
  pose proof Hfind as Hfind'.
  apply list_find_Some in Hfind' as (Hi & Hm & _).
  subst second. split; [|split].
  - unfold add_target. by rewrite Hfind.
  - apply add_target_count; [done|lia].
  - exists i, r1. split; [done|]. split; [done|].
    unfold add_target. rewrite Hfind. simpl. split; [done|].
    unfold get_targets. simpl.
    apply list_elem_of_fmap. exists (excluded_update r1 st2 now2).
    split; [by rewrite <- Hid|].
    apply list_elem_of_filter. split; [done|].
    apply list_elem_of_lookup. exists i.
    apply list_lookup_insert_eq. by eapply lookup_lt_Some.
Qed.

Lemma C10_add_target_upsert_witness :
  let first := add_target default_conflicts empty_registry 100 (VStr "ip")
                 (VStr "10.0.0.1") (VInt 443) (VStr "tcp") (VStr "nmap") ["web"] ∅
                 (VStr "new") in
  let second := add_target default_conflicts first.2 200 (VStr "ip")
                  (VStr "10.0.0.1") (VInt 443) (VStr "tcp") (VStr "nikto") [] ∅
                  (VStr "scanned") in
  second.1 = first.1 ∧
  length (filter (λ r, default_conflicts (row_key r)
                         (VStr "ip", VStr "10.0.0.1", VInt 443, VStr "tcp") = true)
                 (rows second.2)) = 1%nat ∧
  (∃ i r1,
     rows first.2 !! i = Some r1 ∧ row_id r1 = first.1 ∧
     rows second.2
     = <[i := RegistryRow (row_id r1) (target_type r1) (target_value r1)
                (port r1) (protocol r1) (source_plugin r1) (VStr "scanned") (tags r1)
                (meta r1) (created_at r1) 200]> (rows first.2) ∧
     (first.1, target_type r1, target_value r1, port r1, protocol r1,
      VStr "scanned", tags r1, meta r1)
     ∈ get_targets second.2 VNone VNone VNone [] VNone).
Proof.
  apply (C10_add_target_upsert default_conflicts empty_registry 100 200
           (VStr "ip") (VStr "10.0.0.1") (VInt 443) (VStr "tcp")
           (VStr "nmap") (VStr "nikto") ["web"] [] ∅ ∅ (VStr "new") (VStr "scanned")).
  - vm_compute. reflexivity.
  - simpl. lia.
Defined.

(** ** Further properties of the registry *)






End Registry.
